(** * pkg/utils/hash.go: registry of hash algorithms, MultiHasher, HashInfo

    A shallow embedding of [src/pkg/utils/hash.go] and of the parts of the Go
    standard library it calls ([encoding/hex], [strings.Join], [io.MultiWriter],
    [io.Copy], [crypto/md5], [crypto/sha1], [crypto/sha256]).

    Conventions.
    - A Go [[]byte] is a [list byte]; a Go [string] is a [string] (a sequence
      of bytes); [int], [int64], [uint32], [uint64] are [Z] with the
      wrap-around written out where the code can overflow.
    - A [*HashType] is an address into a heap of [HashType] values, so that
      descriptors are compared by identity as the Go maps keyed by
      [*HashType] do.
    - A Go interface value ([hash.Hash], [io.ReadSeeker]) is an object: a
      state together with its methods.
    - A nil-pointer dereference (a panic) is [None]. *)

From Stdlib Require Import ZArith Lia Zify ZifyNat Ascii String.
From Stdlib Require Init.Byte.
From stdpp Require Import base list gmap strings.

#[local] Set Warnings "-clear-no-such-hyp".

Local Open Scope Z_scope.

Abbreviation byte := Init.Byte.byte.

(* ===================================================================== *)
(** ** Bytes, fixed-width integers, hexadecimal                          *)
(* ===================================================================== *)

Definition byte_to_Z (b : byte) : Z := Z.of_N (Byte.to_N b).

Definition byte_of_Z (z : Z) : byte :=
  match Byte.of_N (Z.to_N (z mod 256)) with
  | Some b => b
  | None => Byte.x00
  end.

(** [len(p)] as a Go [int]. *)
Definition len {A} (p : list A) : Z := Z.of_nat (length p).

(** Conversion to [int64]: two's complement wrap-around. *)
Definition wrap64 (z : Z) : Z := (z + 2 ^ 63) mod 2 ^ 64 - 2 ^ 63.

Definition u32 (z : Z) : Z := z mod 2 ^ 32.
Definition u64 (z : Z) : Z := z mod 2 ^ 64.

(** [[]byte(data)] for a Go string [data]. *)
Definition bytes_of_string (s : string) : list byte := list_byte_of_string s.

(** [encoding/hex]: [const hextable = "0123456789abcdef"]. *)
Definition hextable (d : Z) : ascii :=
  if d <? 10 then ascii_of_nat (Z.to_nat (48 + d))
  else ascii_of_nat (Z.to_nat (87 + d)).

(** [hex.EncodeToString]: two lower-case digits per byte, high nibble first. *)
Fixpoint EncodeToString (src : list byte) : string :=
  match src with
  | [] => EmptyString
  | v :: rest =>
      String (hextable (Z.shiftr (byte_to_Z v) 4))
        (String (hextable (Z.land (byte_to_Z v) 15)) (EncodeToString rest))
  end.

(** The one-character string ["\n"]. *)
Definition newline : string := String (ascii_of_nat 10) EmptyString.

(** [strings.Join(elems, sep)]. *)
Fixpoint Join (elems : list string) (sep : string) : string :=
  match elems with
  | [] => EmptyString
  | [e] => e
  | e :: rest => (e ++ sep ++ Join rest sep)%string
  end.

(* ===================================================================== *)
(** ** Errors                                                            *)
(* ===================================================================== *)

(** The error values that flow through the file.  [ErrUnsupported] is
    declared by the file itself; [ErrShortWrite], [errInvalidWrite] and [EOF]
    belong to package [io]; [ErrOther] stands for any error raised by a
    collaborator (a reader, a seeker, a digest computer). *)
Inductive error :=
  | ErrUnsupported
  | ErrShortWrite
  | errInvalidWrite
  | EOF
  | ErrOther (msg : string)
  | ErrWrapped (cause : error) (msg : string).

(** Modelled from the spec: [errs.NewErr] of [internal/errs], which is not
    among the sources.  The spec says that I/O failures met while draining a
    byte source "are wrapped with a contextual message before being surfaced
    to the caller"; the wrapper keeps the cause and the message. *)
Definition NewErr (err : error) (msg : string) : error := ErrWrapped err msg.

(* ===================================================================== *)
(** ** hash.Hash: the digest computer consumed by the file               *)
(* ===================================================================== *)

(** An object implementing [hash.Hash].  Only the two methods the file calls
    are kept: [Write(p) (n int, err error)], which updates the state, and
    [Sum(b) []byte], which by the interface's contract appends the current
    hash to [b] and does not change the underlying state. *)
Record Hash := MkHash {
  hstate : Type;
  hcur : hstate;
  hWrite : hstate -> list byte -> hstate * (Z * option error);
  hSum : hstate -> list byte -> list byte;
}.

(** [h.Write(p)]: the object after the call, and the call's results. *)
Definition Hash_Write (h : Hash) (p : list byte) : Hash * (Z * option error) :=
  let '(s', r) := hWrite h (hcur h) p in
  (MkHash (hstate h) s' (hWrite h) (hSum h), r).

(** [h.Sum(b)]. *)
Definition Hash_Sum (h : Hash) (b : list byte) : list byte :=
  hSum h (hcur h) b.

(* ===================================================================== *)
(** ** HashType and the registry                                         *)
(* ===================================================================== *)

(** [type HashType struct]. *)
Record HashType := MkHashType {
  Width : Z;
  Name : string;
  Alias : string;
  NewFunc : unit -> Hash;
}.

(** A [*HashType]: the address of a descriptor in the heap. *)
Abbreviation ptr := nat.

(** The package-level variables [name2hash], [alias2hash] and [Supported],
    together with the heap that holds every [HashType] allocated so far. *)
Record Registry := MkRegistry {
  heap : list HashType;
  name2hash : gmap string ptr;
  alias2hash : gmap string ptr;
  Supported : list ptr;
}.

(** The variables as initialised by their declaration: two empty maps and a
    nil slice. *)
Definition empty_registry : Registry :=
  {| heap := []; name2hash := ∅; alias2hash := ∅; Supported := [] |}.

(** [RegisterHash]: allocates [newType], stores it under [name] and [alias],
    appends it to [Supported] and returns its address. *)
Definition RegisterHash (r : Registry) (name alias : string) (width : Z)
    (newFunc : unit -> Hash) : Registry * ptr :=
  let newType := length (heap r) in
  ({| heap := heap r ++ [ {| Name := name; Alias := alias;
                             Width := width; NewFunc := newFunc |} ];
      name2hash := <[name := newType]> (name2hash r);
      alias2hash := <[alias := newType]> (alias2hash r);
      Supported := Supported r ++ [newType] |},
   newType).

(* ===================================================================== *)
(** ** The digest computers of the Go standard library                   *)
(* ===================================================================== *)

(** [crypto/md5], [crypto/sha1] and [crypto/sha256] share one shape: a
    [digest] struct holding the chaining words [s] (named [h] in sha1 and
    sha256), a 64-byte buffer [x] of which the first [nx] bytes are pending,
    and the number [len] of bytes written so far as a [uint64]; [Write]
    buffers the input and feeds whole 64-byte chunks to [block]; [Sum] works
    on a copy, writes the padding and the bit length, and serialises the
    words.  The section embeds that shape once, for any block function. *)

Definition BlockSize : nat := 64.

Section BlockDigest.
Context {W : Type}.
(** The compression of one 64-byte chunk. *)
Variable blk : W -> list byte -> W.
(** What [checkSum] writes after the message, given [d.len]. *)
Variable trailer : Z -> list byte.
(** The serialisation of the chaining words. *)
Variable out : W -> list byte.

(** [dig_s] is [d.s], [dig_x] holds the pending bytes [d.x[:d.nx]],
    [dig_len] is [d.len]. *)
Record digest := MkDigest {
  dig_s : W;
  dig_x : list byte;
  dig_len : Z;
}.

(** [block(d, p)]: [for i := 0; i <= len(p)-BlockSize; i += BlockSize]. *)
Fixpoint block_chunks (n : nat) (st : W) (p : list byte) : W :=
  match n with
  | O => st
  | S n' =>
      block_chunks n' (blk st (take BlockSize p)) (drop BlockSize p)
  end.

Definition block (st : W) (p : list byte) : W :=
  block_chunks (length p / BlockSize)%nat st p.

(** [func (d *digest) Write(p []byte) (nn int, err error)]. *)
Definition digest_Write (d : digest) (p : list byte)
    : digest * (Z * option error) :=
  let nn := len p in
  let dl := u64 (dig_len d + nn) in
  (* if d.nx > 0 *)
  let '(st1, x1, p1) :=
    if (0 <? length (dig_x d))%nat then
      let n := Nat.min (BlockSize - length (dig_x d)) (length p) in
      let xs := dig_x d ++ take n p in
      if (length xs =? BlockSize)%nat
      then (block (dig_s d) xs, [], drop n p)
      else (dig_s d, xs, drop n p)
    else (dig_s d, dig_x d, p) in
  (* if len(p) >= BlockSize *)
  let '(st2, p2) :=
    if (BlockSize <=? length p1)%nat then
      let n := (length p1 / BlockSize * BlockSize)%nat in
      (block st1 (take n p1), drop n p1)
    else (st1, p1) in
  (* if len(p) > 0 *)
  let x3 := if (0 <? length p2)%nat then take BlockSize p2 else x1 in
  ({| dig_s := st2; dig_x := x3; dig_len := dl |}, (nn, None)).

(** [func (d *digest) Sum(in []byte) []byte]: [d0 := *d], then
    [checkSum], whose write leaves a whole number of chunks hashed. *)
Definition digest_Sum (d : digest) (b : list byte) : list byte :=
  let d0 := fst (digest_Write d (trailer (dig_len d))) in
  b ++ out (dig_s d0).

(** The object returned by [New()] for initial chaining words [init]. *)
Definition digest_New (init : W) : Hash :=
  MkHash digest {| dig_s := init; dig_x := []; dig_len := 0 |} digest_Write digest_Sum.
End BlockDigest.

Arguments digest : clear implicits.

(** Words and byte order. *)
Definition RotateLeft32 (v : Z) (k : Z) : Z :=
  u32 (Z.lor (Z.shiftl v k) (Z.shiftr v (32 - k))).

Definition not32 (v : Z) : Z := Z.lxor v 0xffffffff.

Fixpoint le_uint (bs : list byte) : Z :=
  match bs with
  | [] => 0
  | b :: rest => byte_to_Z b + 256 * le_uint rest
  end.

Definition be_uint (bs : list byte) : Z := le_uint (rev bs).

(** [n] bytes of [v], least significant first. *)
Fixpoint le_bytes (n : nat) (v : Z) : list byte :=
  match n with
  | O => []
  | S n' => byte_of_Z v :: le_bytes n' (Z.shiftr v 8)
  end.

Definition be_bytes (n : nat) (v : Z) : list byte := rev (le_bytes n v).

(** The sixteen 32-bit words of a chunk. *)
Fixpoint words (rd : list byte -> Z) (n : nat) (q : list byte) : list Z :=
  match n with
  | O => []
  | S n' => rd (take 4 q) :: words rd n' (drop 4 q)
  end.

Definition word_at (w : list Z) (i : nat) : Z := nth i w 0.

(** *** crypto/md5 *)

Module md5.
Definition init : list Z :=
  [0x67452301; 0xEFCDAB89; 0x98BADCFE; 0x10325476].

(** The additive constants, [floor(2^32 * abs(sin(i+1)))]. *)
Definition table : list Z :=
  [ 0xd76aa478; 0xe8c7b756; 0x242070db; 0xc1bdceee;
    0xf57c0faf; 0x4787c62a; 0xa8304613; 0xfd469501;
    0x698098d8; 0x8b44f7af; 0xffff5bb1; 0x895cd7be;
    0x6b901122; 0xfd987193; 0xa679438e; 0x49b40821;
    0xf61e2562; 0xc040b340; 0x265e5a51; 0xe9b6c7aa;
    0xd62f105d; 0x02441453; 0xd8a1e681; 0xe7d3fbc8;
    0x21e1cde6; 0xc33707d6; 0xf4d50d87; 0x455a14ed;
    0xa9e3e905; 0xfcefa3f8; 0x676f02d9; 0x8d2a4c8a;
    0xfffa3942; 0x8771f681; 0x6d9d6122; 0xfde5380c;
    0xa4beea44; 0x4bdecfa9; 0xf6bb4b60; 0xbebfbc70;
    0x289b7ec6; 0xeaa127fa; 0xd4ef3085; 0x04881d05;
    0xd9d4d039; 0xe6db99e5; 0x1fa27cf8; 0xc4ac5665;
    0xf4292244; 0x432aff97; 0xab9423a7; 0xfc93a039;
    0x655b59c3; 0x8f0ccc92; 0xffeff47d; 0x85845dd1;
    0x6fa87e4f; 0xfe2ce6e0; 0xa3014314; 0x4e0811a1;
    0xf7537e82; 0xbd3af235; 0x2ad7d2bb; 0xeb86d391 ].

(** The rotation amounts of the four rounds. *)
Definition shifts : list Z :=
  [ 7; 12; 17; 22;  5; 9; 14; 20;  4; 11; 16; 23;  6; 10; 15; 21 ].

(** Step [i] of the sixty-four: the round function, the message word it
    reads and the rotation, on registers [(a, b, c, d)]; the registers
    then rotate. *)
Definition step (xs : list Z) (r : Z * Z * Z * Z) (i : nat)
    : Z * Z * Z * Z :=
  let '(a, b, c, d) := r in
  let rnd := (i / 16)%nat in
  let f :=
    match rnd with
    | 0%nat => Z.lxor (Z.land (Z.lxor c d) b) d
    | 1%nat => Z.lxor (Z.land (Z.lxor b c) d) c
    | 2%nat => Z.lxor (Z.lxor b c) d
    | _ => Z.lxor c (Z.lor b (not32 d))
    end in
  let k :=
    match rnd with
    | 0%nat => i
    | 1%nat => (1 + 5 * i) mod 16
    | 2%nat => (5 + 3 * i) mod 16
    | _ => (7 * i) mod 16
    end%nat in
  let sh := word_at shifts (4 * rnd + i mod 4) in
  let a' :=
    u32 (b + RotateLeft32 (u32 (f + a + word_at xs k + word_at table i)) sh) in
  (d, a', b, c).

(** [blockGeneric] on one chunk. *)
Definition blk (st : list Z) (q : list byte) : list Z :=
  let xs := words le_uint 16 q in
  let r0 := (word_at st 0, word_at st 1, word_at st 2, word_at st 3) in
  let '(a, b, c, d) := foldl (step xs) r0 (seq 0 64) in
  [ u32 (word_at st 0 + a); u32 (word_at st 1 + b);
    u32 (word_at st 2 + c); u32 (word_at st 3 + d) ].

(** [checkSum]: [tmp := [1 + 63 + 8]byte{0x80}],
    [pad := (55 - d.len) % 64], the bit length little-endian. *)
Definition trailer (dl : Z) : list byte :=
  let pad := u64 (55 - dl) mod 64 in
  Byte.x80 :: replicate (Z.to_nat pad) Byte.x00 ++ le_bytes 8 (u64 (Z.shiftl dl 3)).

Definition out (st : list Z) : list byte :=
  concat (map (le_bytes 4) st).

(** [md5.New]. *)
Definition New (_ : unit) : Hash := digest_New blk trailer out init.
End md5.

(** *** crypto/sha1 *)

Module sha1.
Definition init : list Z :=
  [0x67452301; 0xEFCDAB89; 0x98BADCFE; 0x10325476; 0xC3D2E1F0].

Definition _K0 : Z := 0x5A827999.
Definition _K1 : Z := 0x6ED9EBA1.
Definition _K2 : Z := 0x8F1BBCDC.
Definition _K3 : Z := 0xCA62C1D6.

(** The message schedule: the sixteen words of the chunk, then
    [w[i] = RotateLeft32(w[i-3] ^ w[i-8] ^ w[i-14] ^ w[i-16], 1)]. *)
Definition extend (w : list Z) (i : nat) : list Z :=
  w ++ [ RotateLeft32
           (Z.lxor (Z.lxor (word_at w (i - 3)) (word_at w (i - 8)))
                   (Z.lxor (word_at w (i - 14)) (word_at w (i - 16)))) 1 ].

Definition schedule (q : list byte) : list Z :=
  foldl extend (words be_uint 16 q) (seq 16 64).

Definition step (w : list Z) (r : Z * Z * Z * Z * Z) (i : nat)
    : Z * Z * Z * Z * Z :=
  let '(a, b, c, d, e) := r in
  let '(f, k) :=
    match (i / 20)%nat with
    | 0%nat => (Z.lor (Z.land b c) (Z.land (not32 b) d), _K0)
    | 1%nat => (Z.lxor (Z.lxor b c) d, _K1)
    | 2%nat => (Z.lor (Z.land (Z.lor b c) d) (Z.land b c), _K2)
    | _ => (Z.lxor (Z.lxor b c) d, _K3)
    end in
  let t := u32 (RotateLeft32 a 5 + f + e + word_at w i + k) in
  (t, a, RotateLeft32 b 30, c, d).

Definition blk (st : list Z) (q : list byte) : list Z :=
  let w := schedule q in
  let r0 := (word_at st 0, word_at st 1, word_at st 2, word_at st 3,
             word_at st 4) in
  let '(a, b, c, d, e) := foldl (step w) r0 (seq 0 80) in
  [ u32 (word_at st 0 + a); u32 (word_at st 1 + b);
    u32 (word_at st 2 + c); u32 (word_at st 3 + d);
    u32 (word_at st 4 + e) ].

(** [checkSum]: [0x80], zeros up to 56 bytes mod 64, the bit length
    big-endian. *)
Definition trailer (dl : Z) : list byte :=
  let t := if dl mod 64 <? 56 then 56 - dl mod 64 else 64 + 56 - dl mod 64 in
  Byte.x80 :: replicate (Z.to_nat (t - 1)) Byte.x00
    ++ be_bytes 8 (u64 (Z.shiftl dl 3)).

Definition out (st : list Z) : list byte :=
  concat (map (be_bytes 4) st).

(** [sha1.New]. *)
Definition New (_ : unit) : Hash := digest_New blk trailer out init.
End sha1.

(** *** crypto/sha256 *)

Module sha256.
Definition init : list Z :=
  [ 0x6A09E667; 0xBB67AE85; 0x3C6EF372; 0xA54FF53A;
    0x510E527F; 0x9B05688C; 0x1F83D9AB; 0x5BE0CD19 ].

Definition _K : list Z :=
  [ 0x428A2F98; 0x71374491; 0xB5C0FBCF; 0xE9B5DBA5;
    0x3956C25B; 0x59F111F1; 0x923F82A4; 0xAB1C5ED5;
    0xD807AA98; 0x12835B01; 0x243185BE; 0x550C7DC3;
    0x72BE5D74; 0x80DEB1FE; 0x9BDC06A7; 0xC19BF174;
    0xE49B69C1; 0xEFBE4786; 0x0FC19DC6; 0x240CA1CC;
    0x2DE92C6F; 0x4A7484AA; 0x5CB0A9DC; 0x76F988DA;
    0x983E5152; 0xA831C66D; 0xB00327C8; 0xBF597FC7;
    0xC6E00BF3; 0xD5A79147; 0x06CA6351; 0x14292967;
    0x27B70A85; 0x2E1B2138; 0x4D2C6DFC; 0x53380D13;
    0x650A7354; 0x766A0ABB; 0x81C2C92E; 0x92722C85;
    0xA2BFE8A1; 0xA81A664B; 0xC24B8B70; 0xC76C51A3;
    0xD192E819; 0xD6990624; 0xF40E3585; 0x106AA070;
    0x19A4C116; 0x1E376C08; 0x2748774C; 0x34B0BCB5;
    0x391C0CB3; 0x4ED8AA4A; 0x5B9CCA4F; 0x682E6FF3;
    0x748F82EE; 0x78A5636F; 0x84C87814; 0x8CC70208;
    0x90BEFFFA; 0xA4506CEB; 0xBEF9A3F7; 0xC67178F2 ].

(** [bits.RotateLeft32(v, -k)]. *)
Definition rotr (v : Z) (k : Z) : Z := RotateLeft32 v (32 - k).

(** [w[i] = t1 + w[i-7] + t2 + w[i-16]]. *)
Definition extend (w : list Z) (i : nat) : list Z :=
  let v1 := word_at w (i - 2) in
  let t1 := Z.lxor (Z.lxor (rotr v1 17) (rotr v1 19)) (Z.shiftr v1 10) in
  let v2 := word_at w (i - 15) in
  let t2 := Z.lxor (Z.lxor (rotr v2 7) (rotr v2 18)) (Z.shiftr v2 3) in
  w ++ [ u32 (t1 + word_at w (i - 7) + t2 + word_at w (i - 16)) ].

Definition schedule (q : list byte) : list Z :=
  foldl extend (words be_uint 16 q) (seq 16 48).

Definition step (w : list Z) (r : list Z) (i : nat) : list Z :=
  match r with
  | [a; b; c; d; e; f; g; h] =>
      let t1 :=
        u32 (h + Z.lxor (Z.lxor (rotr e 6) (rotr e 11)) (rotr e 25)
               + Z.lxor (Z.land e f) (Z.land (not32 e) g)
               + word_at _K i + word_at w i) in
      let t2 :=
        u32 (Z.lxor (Z.lxor (rotr a 2) (rotr a 13)) (rotr a 22)
             + Z.lxor (Z.lxor (Z.land a b) (Z.land a c)) (Z.land b c)) in
      [ u32 (t1 + t2); a; b; c; u32 (d + t1); e; f; g ]
  | _ => r
  end.

Definition blk (st : list Z) (q : list byte) : list Z :=
  let w := schedule q in
  let r := foldl (step w) st (seq 0 64) in
  zip_with (fun hi v => u32 (hi + v)) st r.

Definition trailer (dl : Z) : list byte :=
  let t := if dl mod 64 <? 56 then 56 - dl mod 64 else 64 + 56 - dl mod 64 in
  Byte.x80 :: replicate (Z.to_nat (t - 1)) Byte.x00
    ++ be_bytes 8 (u64 (Z.shiftl dl 3)).

Definition out (st : list Z) : list byte :=
  concat (map (be_bytes 4) st).

(** [sha256.New]. *)
Definition New (_ : unit) : Hash := digest_New blk trailer out init.
End sha256.

(* ===================================================================== *)
(** ** Package initialisation                                            *)
(* ===================================================================== *)

(** The [var] block that binds [MD5], [SHA1] and [SHA256]: three calls of
    [RegisterHash], in source order, on the freshly initialised variables. *)
Definition boot : Registry * (ptr * ptr * ptr) :=
  let '(r1, vMD5) := RegisterHash empty_registry "md5" "MD5" 32 md5.New in
  let '(r2, vSHA1) := RegisterHash r1 "sha1" "SHA-1" 40 sha1.New in
  let '(r3, vSHA256) := RegisterHash r2 "sha256" "SHA-256" 64 sha256.New in
  (r3, (vMD5, vSHA1, vSHA256)).

(** The registry when [main] starts, and the three package variables. *)
Definition registry0 : Registry := fst boot.
Definition MD5 : ptr := fst (fst (snd boot)).
Definition SHA1 : ptr := snd (fst (snd boot)).
Definition SHA256 : ptr := snd (snd boot).

(** The registries a process can be in: the initial one, and any registry
    obtained from one of those by a further [RegisterHash]. *)
Inductive reachable : Registry -> Prop :=
  | reachable_boot : reachable registry0
  | reachable_register r name alias width newFunc :
      reachable r ->
      reachable (fst (RegisterHash r name alias width newFunc)).

(* ===================================================================== *)
(** ** HashData and GetMD5EncodeStr                                      *)
(* ===================================================================== *)

(** [HashData]: [h := hashType.NewFunc(); h.Write(data);
    hex.EncodeToString(h.Sum(nil))].  The results of [h.Write] are
    dropped. *)
Definition HashData (r : Registry) (hashType : ptr) (data : list byte)
    : option string :=
  T ← heap r !! hashType;
  let h := NewFunc T () in
  let h1 := fst (Hash_Write h data) in
  Some (EncodeToString (Hash_Sum h1 [])).

(** [GetMD5EncodeStr]. *)
Definition GetMD5EncodeStr (r : Registry) (data : string) : option string :=
  HashData r MD5 (bytes_of_string data).

(* ===================================================================== *)
(** ** Seekable byte sources, io.Copy, HashReader, HashFile              *)
(* ===================================================================== *)

(** An [io.ReadSeeker]: an in-memory file with a read position, made
    fallible the way a real file is.  [f_read_fault = Some (k, e)] makes
    every [Read] at or beyond offset [k] fail with [e] (and no [Read]
    crosses that offset); [f_seek_fault = Some e] makes [Seek] fail with [e]. *)
Record File := MkFile {
  f_data : list byte;
  f_off : nat;
  f_read_fault : option (nat * error);
  f_seek_fault : option error;
}.

(** [Read(buf)] for a buffer of [size] bytes: the file after the call, the
    bytes stored in [buf[0:n]], and the error. *)
Definition File_Read (f : File) (size : nat)
    : File * (list byte * option error) :=
  let limit :=
    match f_read_fault f with
    | Some (k, _) => Nat.min k (length (f_data f))
    | None => length (f_data f)
    end in
  if (limit <=? f_off f)%nat then
    match f_read_fault f with
    | Some (k, e) =>
        if (k <=? f_off f)%nat then (f, ([], Some e)) else (f, ([], Some EOF))
    | None => (f, ([], Some EOF))
    end
  else
    let n := Nat.min size (limit - f_off f) in
    ({| f_data := f_data f; f_off := (f_off f + n)%nat;
        f_read_fault := f_read_fault f; f_seek_fault := f_seek_fault f |},
     (take n (drop (f_off f) (f_data f)), None)).

Inductive whence := SeekStart | SeekCurrent | SeekEnd.

(** [Seek(offset, whence)]: the file after the call, the new position and
    the error; a failed [Seek] leaves the position where it was. *)
Definition File_Seek (f : File) (offset : Z) (wh : whence)
    : File * (Z * option error) :=
  match f_seek_fault f with
  | Some e => (f, (0, Some e))
  | None =>
      let abs :=
        match wh with
        | SeekStart => offset
        | SeekCurrent => Z.of_nat (f_off f) + offset
        | SeekEnd => len (f_data f) + offset
        end in
      if abs <? 0 then (f, (0, Some (ErrOther "negative position")))
      else
        ({| f_data := f_data f; f_off := Z.to_nat abs;
            f_read_fault := f_read_fault f; f_seek_fault := f_seek_fault f |},
         (abs, None))
  end.

(** The buffer [io.Copy] allocates: [size := 32 * 1024]. *)
Definition copy_buffer_size : nat := 32 * 1024.

(** The loop of [io.copyBuffer], one iteration per unit of [fuel]; [None]
    when the fuel runs out before the loop breaks.  The shortcuts through
    [WriterTo] and [ReaderFrom] are not taken: neither the file nor the
    digest computers provide them. *)
Fixpoint copy_loop (fuel : nat) (dst : Hash) (src : File) (written : Z)
    : option (Hash * File * (Z * option error)) :=
  match fuel with
  | O => None
  | S fuel' =>
      let '(src1, (buf, er)) := File_Read src copy_buffer_size in
      let nr := len buf in
      let '(dst1, written1, stop) :=
        if 0 <? nr then
          let '(dst1, (nw, ew)) := Hash_Write dst buf in
          let '(nw, ew) :=
            if (nw <? 0) || (nr <? nw)
            then (0, match ew with None => Some errInvalidWrite | _ => ew end)
            else (nw, ew) in
          let written1 := wrap64 (written + nw) in
          match ew with
          | Some e => (dst1, written1, Some e)
          | None =>
              if nr =? nw then (dst1, written1, None)
              else (dst1, written1, Some ErrShortWrite)
          end
        else (dst, written, None) in
      match stop with
      | Some e => Some (dst1, src1, (written1, Some e))
      | None =>
          match er with
          | Some EOF => Some (dst1, src1, (written1, None))
          | Some e => Some (dst1, src1, (written1, Some e))
          | None => copy_loop fuel' dst1 src1 written1
          end
      end
  end.

(** [io.Copy(dst, src)].  Every iteration that does not break moves the
    read position forward, so one more iteration than there are bytes left
    is enough. *)
Definition io_Copy (dst : Hash) (src : File)
    : option (Hash * File * (Z * option error)) :=
  copy_loop (S (length (f_data src) - f_off src)) dst src 0.

(** [HashReader]: the reader after the call and the two results. *)
Definition HashReader (r : Registry) (hashType : ptr) (reader : File)
    : option (File * (string * option error)) :=
  T ← heap r !! hashType;
  let h := NewFunc T () in
  '(h1, reader1, (_, err)) ← io_Copy h reader;
  match err with
  | Some e => Some (reader1, (EmptyString, Some (NewErr e "HashReader error")))
  | None => Some (reader1, (EncodeToString (Hash_Sum h1 []), None))
  end.

(** [HashFile]. *)
Definition HashFile (r : Registry) (hashType : ptr) (file : File)
    : option (File * (string * option error)) :=
  '(file1, (str, err)) ← HashReader r hashType file;
  match err with
  | Some e => Some (file1, (EmptyString, Some e))
  | None =>
      let '(file2, (_, err2)) := File_Seek file1 0 SeekStart in
      match err2 with
      | Some e => Some (file2, (str, Some e))
      | None => Some (file2, (str, None))
      end
  end.

(* ===================================================================== *)
(** ** MultiHasher and HashInfo                                          *)
(* ===================================================================== *)

(** [type MultiHasher struct].  The digest computers live in [mh_h], the
    map [h] keyed by descriptor; the multiwriter [w] holds references to the
    same objects, kept here as the keys under which they are stored, in the
    order in which [io.MultiWriter] received them.  A write through [w]
    is therefore seen by [Sum] and [GetHashInfo]. *)
Record MultiHasher := MkMultiHasher {
  mh_w : list ptr;
  mh_size : Z;
  mh_h : gmap ptr Hash;
}.

(** [type HashInfo struct]. *)
Record HashInfo := MkHashInfo {
  hi_h : gmap ptr string;
}.

(** [fromTypes]: a fresh hasher per requested type; dereferencing a
    pointer that is not a descriptor panics. *)
Definition fromTypes_step (r : Registry) (acc : option (gmap ptr Hash))
    (t : ptr) : option (gmap ptr Hash) :=
  hashers ← acc;
  T ← heap r !! t;
  Some (<[t := NewFunc T ()]> hashers).

Definition fromTypes (r : Registry) (types : list ptr)
    : option (gmap ptr Hash) :=
  foldl (fromTypes_step r) (Some ∅) types.

(** [multiWriter.Write] of package [io]: the writers are served in
    order; the first error, or the first short write, ends the call, and
    the writers served before it keep what they received.  A reference
    that designates no stored hasher is passed over; [NewMultiHasher]
    creates none. *)
Fixpoint multiWriter_Write (ws : list ptr) (h : gmap ptr Hash)
    (p : list byte) : gmap ptr Hash * (Z * option error) :=
  match ws with
  | [] => (h, (len p, None))
  | k :: ws' =>
      match h !! k with
      | None => multiWriter_Write ws' h p
      | Some o =>
          let '(o1, (n, err)) := Hash_Write o p in
          let h1 := <[k := o1]> h in
          match err with
          | Some e => (h1, (n, Some e))
          | None =>
              if n =? len p then multiWriter_Write ws' h1 p
              else (h1, (n, Some ErrShortWrite))
          end
      end
  end.

(** [MultiHasher.Write]: [n, err = m.w.Write(p); m.size += int64(n)]. *)
Definition MultiHasher_Write (m : MultiHasher) (p : list byte)
    : MultiHasher * (Z * option error) :=
  let '(h1, (n, err)) := multiWriter_Write (mh_w m) (mh_h m) p in
  ({| mh_w := mh_w m; mh_size := wrap64 (mh_size m + n); mh_h := h1 |},
   (n, err)).

(** [MultiHasher.Sum]. *)
Definition MultiHasher_Sum (m : MultiHasher) (hashType : ptr)
    : list byte * option error :=
  match mh_h m !! hashType with
  | None => ([], Some ErrUnsupported)
  | Some h => (Hash_Sum h [], None)
  end.

(** [MultiHasher.Size]. *)
Definition MultiHasher_Size (m : MultiHasher) : Z := mh_size m.

(** [NewHashInfo]. *)
Definition NewHashInfo (ht : ptr) (str : string) : HashInfo :=
  {| hi_h := <[ht := str]> ∅ |}.

(** [HashInfo.GetHash]: a missing key reads as the zero value. *)
Definition HashInfo_GetHash (hi : HashInfo) (ht : ptr) : string :=
  default EmptyString (hi_h hi !! ht).

(** A sequence of [Write] calls: the hasher after the last one and the
    results of each call. *)
Fixpoint MultiHasher_Writes (m : MultiHasher) (ps : list (list byte))
    : MultiHasher * list (Z * option error) :=
  match ps with
  | [] => (m, [])
  | p :: ps' =>
      let '(m1, res) := MultiHasher_Write m p in
      let '(m2, ress) := MultiHasher_Writes m1 ps' in
      (m2, res :: ress)
  end.

(** The sum of the byte counts returned by a sequence of [Write] calls. *)
Definition sum_counts (res : list (Z * option error)) : Z :=
  foldr (fun r acc => r.1 + acc) 0 res.

(** The body of the loop of [HashInfo.String], on the slice [tmp]:
    [if len(str) > 0 { tmp = append(tmp, ht.Name+":"+str) }]. *)
Definition String_step (r : Registry) (acc : option (list string))
    (kv : ptr * string) : option (list string) :=
  tmp ← acc;
  if (0 <? String.length kv.2)%nat then
    T ← heap r !! kv.1;
    Some (tmp ++ [(Name T ++ ":" ++ kv.2)%string])
  else Some tmp.

(** The line [HashInfo.String] prints for an entry. *)
Definition is_line_of (r : Registry) (line : string) (kv : ptr * string)
    : Prop :=
  exists T, heap r !! kv.1 = Some T /\ line = (Name T ++ ":" ++ kv.2)%string.

(** Go leaves the order in which [range] visits a map unspecified.  The
    functions that range over a map take that order as [range]: for every
    map, an enumeration of its entries. *)
Definition map_range : Type := forall A : Type, gmap ptr A -> list (ptr * A).

Definition valid_range (range : map_range) : Prop :=
  forall (A : Type) (m : gmap ptr A), range A m ≡ₚ map_to_list m.

Section Ranging.
Variable range : map_range.

(** [toMultiWriter]: the hashers of the map, in the order [range] visits
    them, handed to [io.MultiWriter]. *)
Definition toMultiWriter (h : gmap ptr Hash) : list ptr :=
  (range Hash h).*1.

(** [NewMultiHasher]. *)
Definition NewMultiHasher (r : Registry) (types : list ptr)
    : option MultiHasher :=
  hashers ← fromTypes r types;
  Some {| mh_h := hashers; mh_w := toMultiWriter hashers; mh_size := 0 |}.

(** [MultiHasher.GetHashInfo]. *)
Definition GetHashInfo (m : MultiHasher) : HashInfo :=
  {| hi_h :=
       foldl (fun dst kv => <[kv.1 := EncodeToString (Hash_Sum kv.2 [])]> dst)
             ∅ (range Hash (mh_h m)) |}.

(** The slice [tmp] built by the loop of [HashInfo.String]; reading
    [ht.Name] through a pointer that is not a descriptor panics. *)
Definition String_tmp (r : Registry) (hi : HashInfo)
    : option (list string) :=
  foldl (String_step r) (Some []) (range string (hi_h hi)).

(** [HashInfo.String]. *)
Definition HashInfo_String (r : Registry) (hi : HashInfo) : option string :=
  tmp ← String_tmp r hi;
  Some (Join tmp newline).
End Ranging.

(* ===================================================================== *)
(** ** The contract of hash.Hash                                         *)
(* ===================================================================== *)

(** What package [hash] promises of a digest computer: [Write] "adds more
    data to the running hash" and "never returns an error".  On the states
    the object can reach ([Inv]), a write takes the whole input, an empty
    write changes nothing, and two writes in a row amount to one write of
    the concatenation. *)
Definition streaming (h : Hash) : Prop :=
  exists Inv : hstate h -> Prop,
    Inv (hcur h)
    /\ (forall st p, Inv st ->
          Inv (hWrite h st p).1 /\ (hWrite h st p).2 = (len p, None))
    /\ (forall st, Inv st -> (hWrite h st []).1 = st)
    /\ (forall st a b, Inv st ->
          (hWrite h (hWrite h st a).1 b).1 = (hWrite h st (a ++ b)).1).

(** A MultiHasher whose writer references are exactly its hashers, once
    each, and whose hashers honour the contract. *)
Definition fan_out_ready (m : MultiHasher) : Prop :=
  NoDup (mh_w m)
  /\ (forall k, k ∈ mh_w m <-> is_Some (mh_h m !! k))
  /\ (forall k o, mh_h m !! k = Some o -> streaming o).

(** A MultiHasher whose writer references are exactly the keys of its
    hashers, once each. *)
Definition wired (m : MultiHasher) : Prop :=
  NoDup (mh_w m) /\ forall k, k ∈ mh_w m <-> is_Some (mh_h m !! k).

(** A file as [HashFile] leaves it after a successful rewind. *)
Definition rewound (f : File) : File :=
  {| f_data := f_data f; f_off := 0;
     f_read_fault := f_read_fault f; f_seek_fault := f_seek_fault f |}.

(** A file as [io.Copy] leaves it when no read fails: at its end, or where
    it was if that is beyond the end. *)
Definition drained (f : File) : File :=
  {| f_data := f_data f; f_off := Nat.max (f_off f) (length (f_data f));
     f_read_fault := f_read_fault f; f_seek_fault := f_seek_fault f |}.

(* ===================================================================== *)
(** ** What a lookup map designates                                      *)
(* ===================================================================== *)

(** [d] is the most recently allocated descriptor whose field [proj] is
    [n]: it carries [n], and no descriptor allocated later does. *)
Definition latest_named (proj : HashType -> string) (hp : list HashType)
    (n : string) (d : ptr) : Prop :=
  (exists T, hp !! d = Some T /\ proj T = n)
  /\ forall d' T', hp !! d' = Some T' -> proj T' = n -> (d' <= d)%nat.

(** The map [m] sends every string to the latest descriptor carrying it,
    and nothing else. *)
Definition indexes (proj : HashType -> string) (hp : list HashType)
    (m : gmap string ptr) : Prop :=
  forall n d, m !! n = Some d <-> latest_named proj hp n d.

(** The characters [hex.EncodeToString] writes. *)
Definition is_hex_digit (c : ascii) : bool :=
  let n := nat_of_ascii c in
  ((48 <=? n) && (n <=? 57) || (97 <=? n) && (n <=? 102))%nat.

(** The value of a character written by [hex.EncodeToString] (the
    [fromHexChar] of package [hex], on lower-case digits). *)
Definition fromHexChar (c : ascii) : Z :=
  let n := Z.of_nat (nat_of_ascii c) in
  if n <? 58 then n - 48 else n - 87.

(* ===================================================================== *)
(** ** Test doubles                                                      *)
(* ===================================================================== *)

(** Digest computers and an iteration order used to exercise the
    statements below on concrete inputs. *)
Module doubles.
(** A writer that takes at most three bytes per call and reports an
    error when it is offered more; its hash is what it has accepted. *)
Definition limited_Write (st : list byte) (p : list byte)
    : list byte * (Z * option error) :=
  (st ++ take 3 p,
   (Z.min 3 (len p),
    if 3 <? len p then Some (ErrOther "no space left") else None)).

Definition limited (_ : unit) : Hash :=
  MkHash (list byte) [] limited_Write (fun st b => b ++ st).

(** A writer that silently takes at most three bytes per call. *)
Definition short_Write (st : list byte) (p : list byte)
    : list byte * (Z * option error) :=
  (st ++ take 3 p, (Z.min 3 (len p), None)).

Definition short (_ : unit) : Hash :=
  MkHash (list byte) [] short_Write (fun st b => b ++ st).

(** The order in which [map_to_list] lists the entries, and the reverse
    order. *)
Definition range_fwd : map_range := fun A m => map_to_list m.
Definition range_bwd : map_range := fun A m => rev (map_to_list m).

Definition hello : list byte := bytes_of_string "hello".

(** The initial registry after one more registration, of [limited]. *)
Definition registry_limited : Registry :=
  (RegisterHash registry0 "limited" "LIMITED" 0 limited).1.
Definition LIMITED : ptr :=
  (RegisterHash registry0 "limited" "LIMITED" 0 limited).2.

(** The initial registry after one more registration, of [short]. *)
Definition registry_short : Registry :=
  (RegisterHash registry0 "short" "SHORT" 0 short).1.
Definition SHORT : ptr :=
  (RegisterHash registry0 "short" "SHORT" 0 short).2.

(** The initial registry after a second registration under the name
    "md5", with another alias and the [short] constructor. *)
Definition registry_twice : Registry :=
  (RegisterHash registry0 "md5" "MD5-bis" 32 short).1.

(** A result set whose two digests are empty; the second key is not a
    descriptor. *)
Definition info_blank : HashInfo :=
  {| hi_h := <[MD5 := EmptyString]> (<[7%nat := EmptyString]> ∅) |}.

(** A five-byte file of which two bytes have been read already. *)
Definition half_read_file : File :=
  {| f_data := hello; f_off := 2; f_read_fault := None;
     f_seek_fault := None |}.

(** A five-byte file whose reads fail from the fourth byte on. *)
Definition torn_file : File :=
  {| f_data := hello; f_off := 0;
     f_read_fault := Some (3%nat, ErrOther "input/output error");
     f_seek_fault := None |}.

(** The bytes of "hello" in three pieces, the middle one empty. *)
Definition pieces : list (list byte) :=
  [bytes_of_string "he"; []; bytes_of_string "llo"].

(** A five-byte file at its start whose [Seek] fails. *)
Definition stuck_file : File :=
  {| f_data := hello; f_off := 0; f_read_fault := None;
     f_seek_fault := Some (ErrOther "seek failed") |}.

(** The result set with an empty digest for [MD5] and "abc123" for
    [SHA1]. *)
Definition info_sha1_only : HashInfo :=
  {| hi_h := <[MD5 := EmptyString]> (<[SHA1 := "abc123"%string]> ∅) |}.

(** The MultiHasher that [NewMultiHasher] builds for [LIMITED] alone. *)
Definition mh_limited : MultiHasher :=
  {| mh_w := [LIMITED]; mh_size := 0;
     mh_h := <[LIMITED := limited ()]> ∅ |}.
(** The MultiHasher that [NewMultiHasher] builds for [MD5], [LIMITED] and
    [SHA1] when the map is visited backwards. *)
Definition mh_three : MultiHasher :=
  default mh_limited
    (NewMultiHasher range_bwd registry_limited [MD5; LIMITED; SHA1]).
(** The MultiHasher that [NewMultiHasher] builds for [SHA256] and [MD5]
    when the map is visited backwards. *)
Definition mh_pair : MultiHasher :=
  default mh_limited (NewMultiHasher range_bwd registry0 [SHA256; MD5]).
End doubles.

(* ===================================================================== *)
(** * Properties                                                         *)
(* ===================================================================== *)

(** ** The registry *)

Lemma RegisterHash_heap r name alias width newFunc :
  heap (RegisterHash r name alias width newFunc).1
  = heap r ++ [MkHashType width name alias newFunc].
Proof. reflexivity. Qed.

Lemma RegisterHash_fresh r name alias width newFunc :
  heap r !! (RegisterHash r name alias width newFunc).2 = None.
Proof. simpl. apply lookup_ge_None_2. lia. Qed.

Lemma RegisterHash_deref r name alias width newFunc :
  heap (RegisterHash r name alias width newFunc).1
    !! (RegisterHash r name alias width newFunc).2
  = Some (MkHashType width name alias newFunc).
Proof.
  simpl. rewrite lookup_app_r by lia. by rewrite Nat.sub_diag.
Qed.

(** Registration never moves or changes a descriptor allocated before. *)
Lemma RegisterHash_keeps r name alias width newFunc d T :
  heap r !! d = Some T ->
  heap (RegisterHash r name alias width newFunc).1 !! d = Some T.
Proof. intros Hd. simpl. by apply lookup_app_l_Some. Qed.

(** In every reachable registry the listed descriptors are allocated. *)
Lemma reachable_Supported_valid r :
  reachable r -> forall d, d ∈ Supported r -> is_Some (heap r !! d).
Proof.
  induction 1 as [|r name alias width newFunc Hr IH]; intros d Hd.
  - vm_compute in Hd.
    apply lookup_lt_is_Some. vm_compute.
    repeat (apply elem_of_cons in Hd as [->|Hd]; [lia|]).
    by apply elem_of_nil in Hd.
  - simpl in Hd. apply elem_of_app in Hd as [Hd|Hd].
    + destruct (IH d Hd) as [T HT]. exists T.
      by apply RegisterHash_keeps.
    + apply list_elem_of_singleton in Hd as ->.
      eexists. apply RegisterHash_deref.
Qed.

(** The three package variables keep designating the standard descriptors. *)
Lemma reachable_MD5 r :
  reachable r -> heap r !! MD5 = Some (MkHashType 32 "md5" "MD5" md5.New).
Proof.
  induction 1; [reflexivity|]. by apply RegisterHash_keeps.
Qed.

(** C7. When the process starts, [Supported] lists exactly three
    descriptors, in the order md5, sha1, sha256; they are the values of
    [MD5], [SHA1] and [SHA256], carry the names, aliases and widths
    ("md5", "MD5", 32), ("sha1", "SHA-1", 40), ("sha256", "SHA-256", 64) and
    the constructors [md5.New], [sha1.New], [sha256.New]; [name2hash] maps
    exactly the three names, and [alias2hash] exactly the three aliases, to
    them. *)
Theorem boot_registers_three :
  Supported registry0 = [MD5; SHA1; SHA256]
  /\ NoDup [MD5; SHA1; SHA256]
  /\ heap registry0 !! MD5 = Some (MkHashType 32 "md5" "MD5" md5.New)
  /\ heap registry0 !! SHA1 = Some (MkHashType 40 "sha1" "SHA-1" sha1.New)
  /\ heap registry0 !! SHA256
     = Some (MkHashType 64 "sha256" "SHA-256" sha256.New)
  /\ (forall n d, name2hash registry0 !! n = Some d <->
        (n, d) ∈ [("md5", MD5); ("sha1", SHA1); ("sha256", SHA256)])
  /\ (forall a d, alias2hash registry0 !! a = Some d <->
        (a, d) ∈ [("MD5", MD5); ("SHA-1", SHA1); ("SHA-256", SHA256)]).
Proof.
  split; [reflexivity|].
  split; [by apply (bool_decide_unpack _)|].
  do 3 (split; [reflexivity|]).
  split.
  - intros n d.
    change (name2hash registry0) with
      (<["sha256" := SHA256]> (<["sha1" := SHA1]> (<["md5" := MD5]> (∅ : gmap string ptr)))).
    rewrite !lookup_insert_Some, lookup_empty.
    rewrite !elem_of_cons, elem_of_nil.
    split.
    + intros [[<- <-]|[Hne1 [[<- <-]|[Hne2 [[<- <-]|[_ ?]]]]]]; try done; auto.
    + intros [[= -> ->]|[[= -> ->]|[[= -> ->]|[]]]].
      * right. split; [done|]. right. split; [done|]. by left.
      * right. split; [done|]. by left.
      * by left.
  - intros a d.
    change (alias2hash registry0) with
      (<["SHA-256" := SHA256]> (<["SHA-1" := SHA1]> (<["MD5" := MD5]> (∅ : gmap string ptr)))).
    rewrite !lookup_insert_Some, lookup_empty.
    rewrite !elem_of_cons, elem_of_nil.
    split.
    + intros [[<- <-]|[Hne1 [[<- <-]|[Hne2 [[<- <-]|[_ ?]]]]]]; try done; auto.
    + intros [[= -> ->]|[[= -> ->]|[[= -> ->]|[]]]].
      * right. split; [done|]. right. split; [done|]. by left.
      * right. split; [done|]. by left.
      * by left.
Qed.

(** C4. Two registrations under one canonical name allocate two distinct
    descriptors; afterwards [name2hash] maps the name to the second one, and
    [Supported] is the former list followed by the first and then the second
    descriptor, each still holding what it was registered with. *)
Theorem duplicate_name_last_wins r name alias1 alias2 width1 width2 new1 new2 :
  let '(r1, d1) := RegisterHash r name alias1 width1 new1 in
  let '(r2, d2) := RegisterHash r1 name alias2 width2 new2 in
  name2hash r2 !! name = Some d2
  /\ d1 <> d2
  /\ Supported r2 = Supported r ++ [d1; d2]
  /\ heap r2 !! d1 = Some (MkHashType width1 name alias1 new1)
  /\ heap r2 !! d2 = Some (MkHashType width2 name alias2 new2).
Proof.
  simpl. split; [apply lookup_insert_eq|].
  split; [rewrite length_app; simpl; lia|].
  split; [by rewrite <- app_assoc|].
  split.
  - rewrite lookup_app_l by (rewrite length_app; simpl; lia).
    rewrite lookup_app_r by lia. by rewrite Nat.sub_diag.
  - rewrite lookup_app_r by (rewrite length_app; simpl; lia).
    rewrite length_app. simpl.
    by replace (length (heap r) + 1 - (length (heap r) + 1))%nat with 0%nat by lia.
Qed.

(** ** int64 arithmetic *)

Lemma wrap64_small z : - 2 ^ 63 <= z < 2 ^ 63 -> wrap64 z = z.
Proof. intros Hz. unfold wrap64. rewrite Z.mod_small; lia. Qed.

Lemma wrap64_range z : - 2 ^ 63 <= wrap64 z < 2 ^ 63.
Proof.
  unfold wrap64. pose proof (Z.mod_pos_bound (z + 2 ^ 63) (2 ^ 64)). lia.
Qed.

Lemma wrap64_add_l a b : wrap64 (wrap64 a + b) = wrap64 (a + b).
Proof.
  unfold wrap64.
  replace ((a + 2 ^ 63) mod 2 ^ 64 - 2 ^ 63 + b + 2 ^ 63)
    with ((a + 2 ^ 63) mod 2 ^ 64 + b) by lia.
  rewrite Zplus_mod_idemp_l. f_equal. f_equal. lia.
Qed.

(** ** fromTypes and the multiwriter *)

Lemma fromTypes_None r types :
  foldl (fromTypes_step r) None types = None.
Proof. induction types as [|t ts IH]; [done|]. simpl. apply IH. Qed.

Lemma fromTypes_acc r types : forall acc h,
  foldl (fromTypes_step r) (Some acc) types = Some h ->
  forall d o, h !! d = Some o <->
    ((d ∉ types) /\ acc !! d = Some o)
    \/ ((d ∈ types) /\ exists T, heap r !! d = Some T /\ o = NewFunc T ()).
Proof.
  induction types as [|t ts IH]; intros acc h Hfold d o; simpl in Hfold.
  - injection Hfold as <-. split.
    + intros Hd. left. split; [apply not_elem_of_nil|done].
    + intros [[_ Hd]|[Hd _]]; [done|]. by apply elem_of_nil in Hd.
  - destruct (heap r !! t) as [T|] eqn:HT; simpl in Hfold.
    2:{ by rewrite fromTypes_None in Hfold. }
    rewrite (IH _ _ Hfold d o). rewrite not_elem_of_cons, elem_of_cons.
    destruct (decide (d = t)) as [->|Hne].
    + rewrite lookup_insert_eq. split.
      * intros [[Hnin [= <-]]|[Hin Hex]]; right; eauto.
      * intros [[[? _] _]|[_ Hex]]; [done|].
        destruct (decide (t ∈ ts)); [right; auto|left].
        split; [done|]. destruct Hex as (T' & HT' & ->). congruence.
    + rewrite lookup_insert_ne by done. split.
      * intros [[Hnin Hacc]|[Hin Hex]]; [left|right]; auto.
      * intros [[[_ Hnin] Hacc]|[[?|Hin] Hex]]; [left|done|right]; auto.
Qed.

(** [fromTypes] holds exactly the requested types, each with a hasher
    freshly made by its own constructor. *)
Lemma fromTypes_lookup r types h d o :
  fromTypes r types = Some h ->
  h !! d = Some o <->
  d ∈ types /\ exists T, heap r !! d = Some T /\ o = NewFunc T ().
Proof.
  intros Hf. rewrite (fromTypes_acc _ _ _ _ Hf d o), lookup_empty.
  naive_solver.
Qed.

Lemma fromTypes_dom r types h d :
  fromTypes r types = Some h -> is_Some (h !! d) <-> d ∈ types.
Proof.
  intros Hf. split.
  - intros [o Ho]. by apply (fromTypes_lookup _ _ _ _ _ Hf) in Ho as [? _].
  - intros Hin.
    destruct (heap r !! d) as [T|] eqn:HT.
    + exists (NewFunc T ()). apply (fromTypes_lookup _ _ _ _ _ Hf). eauto.
    + exfalso. revert Hf. unfold fromTypes. generalize (∅ : gmap ptr Hash).
      induction types as [|t ts IH]; intros acc Hf; [by apply elem_of_nil in Hin|].
      simpl in Hf. apply elem_of_cons in Hin as [->|Hin].
      * rewrite HT in Hf. simpl in Hf. by rewrite fromTypes_None in Hf.
      * destruct (heap r !! t); simpl in Hf; [by eapply IH|].
        by rewrite fromTypes_None in Hf.
Qed.

Lemma fromTypes_is_Some r types :
  (forall t, t ∈ types -> is_Some (heap r !! t)) ->
  is_Some (fromTypes r types).
Proof.
  unfold fromTypes. generalize (∅ : gmap ptr Hash).
  induction types as [|t ts IH]; intros acc Hv; simpl; [eauto|].
  destruct (Hv t) as [T ->]; [by left|]. simpl. apply IH.
  intros t' Ht'. apply Hv. by right.
Qed.

(** A write through the multiwriter replaces hashers in place: no key
    appears or disappears. *)
Lemma multiWriter_Write_dom ws p : forall h d,
  is_Some ((multiWriter_Write ws h p).1 !! d) <-> is_Some (h !! d).
Proof.
  induction ws as [|k ws IH]; intros h d; simpl; [done|].
  destruct (h !! k) as [o|] eqn:Hk; [|apply IH].
  destruct (Hash_Write o p) as [o1 [n [e|]]]; simpl.
  - rewrite lookup_insert_is_Some. destruct (decide (k = d)) as [->|]; naive_solver.
  - destruct (n =? len p); simpl.
    + rewrite IH, lookup_insert_is_Some.
      destruct (decide (k = d)) as [->|]; naive_solver.
    + rewrite lookup_insert_is_Some.
      destruct (decide (k = d)) as [->|]; naive_solver.
Qed.

(** The multiwriter reports success only with the full length. *)
Lemma multiWriter_Write_ok ws p : forall h n,
  (multiWriter_Write ws h p).2 = (n, None) -> n = len p.
Proof.
  induction ws as [|k ws IH]; intros h n; simpl; [congruence|].
  destruct (h !! k) as [o|]; [|apply IH].
  destruct (Hash_Write o p) as [o1 [n1 [e|]]]; simpl; [congruence|].
  destruct (n1 =? len p); simpl; [apply IH|congruence].
Qed.

Lemma MultiHasher_Write_dom m p d :
  is_Some (mh_h (MultiHasher_Write m p).1 !! d) <-> is_Some (mh_h m !! d).
Proof.
  unfold MultiHasher_Write.
  pose proof (multiWriter_Write_dom (mh_w m) p (mh_h m) d) as Hd.
  destruct (multiWriter_Write (mh_w m) (mh_h m) p) as [h1 [n err]]. done.
Qed.

Lemma MultiHasher_Write_size m p :
  mh_size (MultiHasher_Write m p).1
  = wrap64 (mh_size m + (MultiHasher_Write m p).2.1).
Proof.
  unfold MultiHasher_Write.
  destruct (multiWriter_Write (mh_w m) (mh_h m) p) as [h1 [n err]]. done.
Qed.

Lemma MultiHasher_Writes_dom ps : forall m d,
  is_Some (mh_h (MultiHasher_Writes m ps).1 !! d) <-> is_Some (mh_h m !! d).
Proof.
  induction ps as [|p ps IH]; intros m d; simpl; [done|].
  pose proof (MultiHasher_Write_dom m p d) as Hd.
  destruct (MultiHasher_Write m p) as [m1 res].
  specialize (IH m1 d).
  destruct (MultiHasher_Writes m1 ps) as [m2 ress]. simpl in *. by rewrite IH.
Qed.

Lemma MultiHasher_Writes_size ps : forall m,
  - 2 ^ 63 <= mh_size m < 2 ^ 63 ->
  mh_size (MultiHasher_Writes m ps).1
  = wrap64 (mh_size m + sum_counts (MultiHasher_Writes m ps).2).
Proof.
  induction ps as [|p ps IH]; intros m Hm; simpl.
  - rewrite Z.add_0_r. symmetry. by apply wrap64_small.
  - pose proof (MultiHasher_Write_size m p) as Hs.
    destruct (MultiHasher_Write m p) as [m1 res].
    specialize (IH m1).
    destruct (MultiHasher_Writes m1 ps) as [m2 ress]. simpl in *.
    rewrite IH, Hs by (rewrite Hs; apply wrap64_range).
    rewrite wrap64_add_l. f_equal. lia.
Qed.

(** ** MultiHasher: Sum, Size, Write *)

(** C2. On a MultiHasher built by [NewMultiHasher] from [types] and then
    written to any number of times, [Sum(d)] returns [ErrUnsupported]
    exactly when [d] is not among [types]; when [d] is among them, [Sum]
    returns the current digest of the hasher kept for [d], and no error. *)
Theorem Sum_unsupported_iff range r types m ps d :
  NewMultiHasher range r types = Some m ->
  let m' := (MultiHasher_Writes m ps).1 in
  ((MultiHasher_Sum m' d).2 = Some ErrUnsupported <-> d ∉ types)
  /\ (d ∈ types ->
      exists o, mh_h m' !! d = Some o
                /\ MultiHasher_Sum m' d = (Hash_Sum o [], None)).
Proof.
  intros Hnew m'. unfold NewMultiHasher in Hnew.
  destruct (fromTypes r types) as [hashers|] eqn:Hf; [|done].
  injection Hnew as <-.
  assert (Hdom : is_Some (mh_h m' !! d) <-> d ∈ types).
  { unfold m'. rewrite MultiHasher_Writes_dom. simpl.
    by apply (fromTypes_dom r). }
  unfold MultiHasher_Sum. split.
  - destruct (mh_h m' !! d) as [o|]; simpl.
    + split; [done|]. intros Hn. destruct Hn. apply Hdom. eauto.
    + split; [|done]. intros _ Hin. apply Hdom in Hin. by destruct Hin.
  - intros Hin. apply Hdom in Hin as [o Ho]. exists o. by rewrite Ho.
Qed.

Lemma Sum_unsupported_iff_witness :
  exists m,
    NewMultiHasher doubles.range_fwd registry0 [MD5; SHA256] = Some m
    /\ let m' := (MultiHasher_Writes m [doubles.hello]).1 in
       ((MultiHasher_Sum m' SHA1).2 = Some ErrUnsupported
        <-> SHA1 ∉ [MD5; SHA256])
       /\ (SHA1 ∈ [MD5; SHA256] ->
           exists o, mh_h m' !! SHA1 = Some o
                     /\ MultiHasher_Sum m' SHA1 = (Hash_Sum o [], None)).
Proof.
  eexists. split; [reflexivity|].
  apply (Sum_unsupported_iff doubles.range_fwd registry0 [MD5; SHA256] _
           [doubles.hello] SHA1).
  reflexivity.
Defined.

(** C3. After any sequence of [Write] calls on a fresh MultiHasher,
    [Size()] is the sum of the counts those calls returned, taken as an
    [int64]: it is that sum itself whenever the sum fits an [int64].  A
    single [Write] of a buffer [B] that reports no error returns [len(B)],
    and [Size()] is then [len(B)]. *)
Theorem Size_is_sum_of_counts range r types m ps :
  NewMultiHasher range r types = Some m ->
  MultiHasher_Size (MultiHasher_Writes m ps).1
    = wrap64 (sum_counts (MultiHasher_Writes m ps).2)
  /\ (- 2 ^ 63 <= sum_counts (MultiHasher_Writes m ps).2 < 2 ^ 63 ->
      MultiHasher_Size (MultiHasher_Writes m ps).1
      = sum_counts (MultiHasher_Writes m ps).2)
  /\ (forall B m1 n,
        len B < 2 ^ 63 ->
        MultiHasher_Write m B = (m1, (n, None)) ->
        n = len B /\ MultiHasher_Size m1 = len B).
Proof.
  intros Hnew. unfold NewMultiHasher in Hnew.
  destruct (fromTypes r types) as [hashers|]; [|done].
  injection Hnew as <-.
  assert (Hsum : forall ps', MultiHasher_Size (MultiHasher_Writes
            {| mh_w := toMultiWriter range hashers; mh_size := 0;
               mh_h := hashers |} ps').1
          = wrap64 (sum_counts (MultiHasher_Writes
            {| mh_w := toMultiWriter range hashers; mh_size := 0;
               mh_h := hashers |} ps').2)).
  { intros ps'. unfold MultiHasher_Size.
    rewrite MultiHasher_Writes_size by (simpl; lia). done. }
  split; [apply Hsum|]. split.
  - intros Hfit. rewrite Hsum. by apply wrap64_small.
  - intros B m1 n HB Hw.
    assert (n = len B) as ->.
    { unfold MultiHasher_Write in Hw.
      pose proof (multiWriter_Write_ok (toMultiWriter range hashers) B hashers n) as Hok.
      simpl in Hw.
      destruct (multiWriter_Write (toMultiWriter range hashers) hashers B)
        as [h1 [n1 err]].
      injection Hw as _ <- ->. by apply Hok. }
    split; [done|].
    unfold MultiHasher_Size.
    pose proof (MultiHasher_Write_size
      {| mh_w := toMultiWriter range hashers; mh_size := 0; mh_h := hashers |} B) as Hs.
    rewrite Hw in Hs. simpl in Hs. rewrite Hs.
    apply wrap64_small. unfold len in *. lia.
Qed.

Lemma Size_is_sum_of_counts_witness :
  exists m,
    NewMultiHasher doubles.range_fwd registry0 [MD5; SHA1; SHA256] = Some m
    /\ MultiHasher_Size
         (MultiHasher_Writes m [doubles.hello; []; doubles.hello]).1 = 10
    /\ sum_counts (MultiHasher_Writes m [doubles.hello; []; doubles.hello]).2
       = 10
    /\ exists m1, MultiHasher_Write m doubles.hello = (m1, (5, None))
                  /\ MultiHasher_Size m1 = len doubles.hello.
Proof.
  eexists. split; [reflexivity|].
  destruct (Size_is_sum_of_counts doubles.range_fwd registry0
              [MD5; SHA1; SHA256] _ [doubles.hello; []; doubles.hello]
              eq_refl) as (Hsum & Hfit & Hone).
  split; [rewrite Hfit; [reflexivity|vm_compute; split; [discriminate|reflexivity]]|].
  split; [reflexivity|].
  eexists. split; [reflexivity|].
  eapply Hone; [reflexivity|reflexivity].
Defined.

(** C9. A [Write] that returns [(n, err)] with [err] not nil has added [n]
    to the byte counter all the same: [Size()] afterwards is the former
    [Size()] plus [n], as an [int64]. *)
Theorem Write_error_keeps_count m p m' n e :
  MultiHasher_Write m p = (m', (n, Some e)) ->
  MultiHasher_Size m' = wrap64 (MultiHasher_Size m + n)
  /\ (- 2 ^ 63 <= MultiHasher_Size m + n < 2 ^ 63 ->
      MultiHasher_Size m' = MultiHasher_Size m + n).
Proof.
  intros Hw. pose proof (MultiHasher_Write_size m p) as Hs.
  rewrite Hw in Hs. simpl in Hs. unfold MultiHasher_Size.
  split; [done|]. intros Hfit. rewrite Hs. by apply wrap64_small.
Qed.

Lemma Write_error_keeps_count_witness :
  NewMultiHasher doubles.range_fwd doubles.registry_limited [doubles.LIMITED]
    = Some doubles.mh_limited
  /\ (MultiHasher_Write doubles.mh_limited doubles.hello).2
     = (3, Some (ErrOther "no space left"))
  /\ MultiHasher_Size doubles.mh_limited = 0
  /\ MultiHasher_Size (MultiHasher_Write doubles.mh_limited doubles.hello).1
     = 3.
Proof.
  split; [reflexivity|]. split; [reflexivity|]. split; [reflexivity|].
  refine (proj2 (Write_error_keeps_count doubles.mh_limited doubles.hello
                   (MultiHasher_Write doubles.mh_limited doubles.hello).1 3
                   (ErrOther "no space left") eq_refl) _).
  vm_compute. split; [discriminate|reflexivity].
Defined.

(** ** Ranging over a map *)

Lemma valid_range_singleton range A (k : ptr) (v : A) :
  valid_range range -> range A (<[k := v]> ∅) = [(k, v)].
Proof.
  intros Hr. specialize (Hr A (<[k := v]> ∅)).
  rewrite insert_empty, map_to_list_singleton in Hr.
  rewrite insert_empty. by apply Permutation_singleton_r.
Qed.

Lemma foldl_insert_lookup {A B} (f : A -> B) (l : list (ptr * A)) :
  NoDup l.*1 ->
  forall (acc : gmap ptr B) k,
    foldl (fun dst kv => <[kv.1 := f kv.2]> dst) acc l !! k
    = match (list_to_map l : gmap ptr A) !! k with
      | Some v => Some (f v)
      | None => acc !! k
      end.
Proof.
  induction l as [|[k0 v0] l IH]; intros Hnd acc k; simpl.
  - by rewrite lookup_empty.
  - apply NoDup_cons in Hnd as [Hk0 Hnd]. rewrite (IH Hnd).
    destruct (decide (k0 = k)) as [->|Hne].
    + rewrite (not_elem_of_list_to_map_1 _ _ Hk0), !lookup_insert_eq. done.
    + by rewrite !lookup_insert_ne.
Qed.

(** Whatever the order of the visit, [GetHashInfo] holds the hex digest of
    every hasher, under the hasher's key. *)
Lemma GetHashInfo_fmap range m :
  valid_range range ->
  hi_h (GetHashInfo range m)
  = (fun o => EncodeToString (Hash_Sum o [])) <$> mh_h m.
Proof.
  intros Hr. apply map_eq. intros k. simpl.
  assert (Hnd : NoDup (range Hash (mh_h m)).*1).
  { rewrite (Hr Hash (mh_h m)). apply NoDup_fst_map_to_list. }
  rewrite (foldl_insert_lookup (fun o => EncodeToString (Hash_Sum o [])) _ Hnd).
  rewrite (list_to_map_proper _ _ Hnd (Hr Hash (mh_h m))).
  rewrite list_to_map_to_list, lookup_fmap, lookup_empty.
  by destruct (mh_h m !! k).
Qed.

(** ** One algorithm: MultiHasher against HashData *)

(** C1. For a descriptor [X] listed in [Supported] and any bytes [B]: a
    MultiHasher built for [X] alone, after [Write(B)], returns from
    [Sum(X)] a digest whose hex encoding is the string [HashData(X, B)]
    returns, and [GetHashInfo] holds that same string for [X]. *)
Theorem single_hasher_agrees_with_HashData range r X B :
  valid_range range ->
  reachable r ->
  X ∈ Supported r ->
  exists m dg,
    NewMultiHasher range r [X] = Some m
    /\ MultiHasher_Sum (MultiHasher_Write m B).1 X = (dg, None)
    /\ HashData r X B = Some (EncodeToString dg)
    /\ HashInfo_GetHash (GetHashInfo range (MultiHasher_Write m B).1) X
       = EncodeToString dg.
Proof.
  intros Hr Hreach HX.
  destruct (reachable_Supported_valid r Hreach X HX) as [T HT].
  unfold NewMultiHasher, fromTypes, HashData. simpl.
  unfold fromTypes_step. simpl. rewrite HT. simpl.
  eexists. exists (Hash_Sum (Hash_Write (NewFunc T ()) B).1 []).
  split; [reflexivity|].
  assert (Hh : mh_h (MultiHasher_Write
            {| mh_w := toMultiWriter range (<[X:=NewFunc T ()]> ∅);
               mh_size := 0; mh_h := <[X:=NewFunc T ()]> ∅ |} B).1 !! X
          = Some (Hash_Write (NewFunc T ()) B).1).
  { unfold MultiHasher_Write, toMultiWriter. simpl.
    rewrite (valid_range_singleton range Hash X _ Hr). simpl.
    rewrite lookup_insert_eq.
    destruct (Hash_Write (NewFunc T ()) B) as [o1 [n [e|]]]; simpl.
    - apply lookup_insert_eq.
    - destruct (n =? len B); simpl; apply lookup_insert_eq. }
  split; [|split; [done|]].
  - unfold MultiHasher_Sum. by rewrite Hh.
  - unfold HashInfo_GetHash. rewrite (GetHashInfo_fmap _ _ Hr), lookup_fmap, Hh.
    done.
Qed.

Lemma single_hasher_agrees_with_HashData_witness :
  exists m dg,
    NewMultiHasher doubles.range_fwd registry0 [SHA1] = Some m
    /\ MultiHasher_Sum (MultiHasher_Write m doubles.hello).1 SHA1 = (dg, None)
    /\ HashData registry0 SHA1 doubles.hello = Some (EncodeToString dg)
    /\ HashInfo_GetHash
         (GetHashInfo doubles.range_fwd (MultiHasher_Write m doubles.hello).1)
         SHA1
       = EncodeToString dg.
Proof.
  apply (single_hasher_agrees_with_HashData doubles.range_fwd registry0 SHA1
           doubles.hello).
  - intros A m. reflexivity.
  - apply reachable_boot.
  - apply (bool_decide_unpack _). reflexivity.
Defined.

(** ** Convenience helper and reference values *)

(** C10. [GetMD5EncodeStr(s)] is [HashData] applied to the descriptor
    [MD5] and the bytes of [s]; in every reachable registry that is the hex
    encoding of the md5 digest of those bytes. *)
Theorem GetMD5EncodeStr_is_HashData r s :
  GetMD5EncodeStr r s = HashData r MD5 (bytes_of_string s)
  /\ (reachable r ->
      GetMD5EncodeStr r s
      = Some (EncodeToString
                (Hash_Sum (Hash_Write (md5.New ()) (bytes_of_string s)).1 []))).
Proof.
  split; [reflexivity|].
  intros Hr. unfold GetMD5EncodeStr, HashData.
  by rewrite (reachable_MD5 r Hr).
Qed.

Lemma GetMD5EncodeStr_is_HashData_witness :
  GetMD5EncodeStr registry0 "hello"
  = HashData registry0 MD5 (bytes_of_string "hello")
  /\ GetMD5EncodeStr registry0 "hello"
     = Some "5d41402abc4b2a76b9719d911017c592"%string.
Proof.
  destruct (GetMD5EncodeStr_is_HashData registry0 "hello") as [Heq Hmd5].
  split; [exact Heq|].
  rewrite (Hmd5 reachable_boot). vm_compute. reflexivity.
Defined.

(** C8, as amended.  For the ASCII bytes of "hello", [HashData] returns
    5d41402abc4b2a76b9719d911017c592 with the [MD5] descriptor and
    2cf24dba5fb0a30e26e83b2ac5b9e29e1b161e5c1fa7425e73043362938b9824 with
    the [SHA256] descriptor. *)
Theorem HashData_hello :
  HashData registry0 MD5 (bytes_of_string "hello")
  = Some "5d41402abc4b2a76b9719d911017c592"%string
  /\ HashData registry0 SHA256 (bytes_of_string "hello")
     = Some "2cf24dba5fb0a30e26e83b2ac5b9e29e1b161e5c1fa7425e73043362938b9824"%string.
Proof. split; vm_compute; reflexivity. Qed.

(** C8, as stated, also asserts the 31-character value
    5d41402abc4b2a76b9719d911017c59 for the MD5 of "hello"; [HashData] does
    not return it. *)
Lemma HashData_hello_not_truncated :
  ~ (HashData registry0 MD5 (bytes_of_string "hello")
     = Some "5d41402abc4b2a76b9719d911017c592"%string
     /\ HashData registry0 MD5 (bytes_of_string "hello")
        = Some "5d41402abc4b2a76b9719d911017c59"%string
     /\ HashData registry0 SHA256 (bytes_of_string "hello")
        = Some "2cf24dba5fb0a30e26e83b2ac5b9e29e1b161e5c1fa7425e73043362938b9824"%string).
Proof.
  intros (_ & H & _). vm_compute in H. discriminate H.
Qed.

(** ** The block digests stream *)

Ltac Zify.zify_post_hook ::= Z.to_euclidean_division_equations.

Section BlockDigestLaws.
Context {W : Type}.
Variable blk : W -> list byte -> W.

Lemma block_chunks_app k1 : forall k2 st p1 p2,
  length p1 = (BlockSize * k1)%nat ->
  block_chunks blk (k1 + k2) st (p1 ++ p2)
  = block_chunks blk k2 (block_chunks blk k1 st p1) p2.
Proof.
  induction k1 as [|k1 IH]; intros k2 st p1 p2 Hlen; simpl.
  - by destruct p1.
  - rewrite take_app_le, drop_app_le by (unfold BlockSize in *; lia).
    apply IH. rewrite length_drop. unfold BlockSize in *. lia.
Qed.

(** [block] reads whole chunks only. *)
Lemma block_app st p1 p2 :
  (length p1 mod BlockSize = 0)%nat ->
  block blk st (p1 ++ p2) = block blk (block blk st p1) p2.
Proof.
  unfold block, BlockSize. intros Hmod.
  replace (length (p1 ++ p2) / 64)%nat
    with (length p1 / 64 + length p2 / 64)%nat
    by (rewrite length_app; lia).
  apply block_chunks_app. unfold BlockSize. lia.
Qed.

Lemma block_short st p :
  (length p < BlockSize)%nat -> block blk st p = st.
Proof.
  unfold block, BlockSize. intros Hlt.
  by replace (length p / 64)%nat with 0%nat by lia.
Qed.

Lemma block_take st p :
  block blk st (take (length p / BlockSize * BlockSize) p) = block blk st p.
Proof.
  rewrite <- (take_drop (length p / BlockSize * BlockSize) p) at 3.
  rewrite block_app.
  - rewrite (block_short _ (drop _ _)); [done|].
    rewrite length_drop. unfold BlockSize. lia.
  - rewrite length_take. unfold BlockSize. lia.
Qed.

(** What [Write] amounts to: the chunks of the pending bytes followed by
    the input are compressed, the rest stays pending. *)
Lemma digest_Write_normal (d : digest W) p :
  (length (dig_x d) < BlockSize)%nat ->
  digest_Write blk d p
  = ({| dig_s := block blk (dig_s d) (dig_x d ++ p);
        dig_x := drop (length (dig_x d ++ p) / BlockSize * BlockSize)
                      (dig_x d ++ p);
        dig_len := u64 (dig_len d + len p) |},
     (len p, None)).
Proof.
  intros Hx. unfold digest_Write.
  assert (Htail : forall st p1,
    (let '(st2, p2) :=
       if (BlockSize <=? length p1)%nat
       then (block blk st (take (length p1 / BlockSize * BlockSize) p1),
             drop (length p1 / BlockSize * BlockSize) p1)
       else (st, p1) in
     (st2, if (0 <? length p2)%nat then take BlockSize p2 else []))
    = (block blk st p1, drop (length p1 / BlockSize * BlockSize) p1)).
  { intros st p1. unfold BlockSize.
    destruct (Nat.leb_spec 64 (length p1)) as [Hge|Hlt].
    - rewrite block_take. f_equal.
      destruct (Nat.ltb_spec 0 (length (drop (length p1 / 64 * 64) p1)))
        as [Hpos|Hz].
      + apply take_ge. rewrite length_drop. lia.
      + symmetry. apply nil_length_inv. lia.
    - rewrite block_short by (unfold BlockSize; lia).
      replace (length p1 / 64 * 64)%nat with 0%nat by lia.
      rewrite drop_0. f_equal.
      destruct (Nat.ltb_spec 0 (length p1)) as [Hpos|Hz].
      + apply take_ge. lia.
      + symmetry. apply nil_length_inv. lia. }
  destruct (Nat.ltb_spec 0 (length (dig_x d))) as [Hpos|Hz].
  - destruct (Nat.eqb_spec
      (length (dig_x d ++
         take (Nat.min (BlockSize - length (dig_x d)) (length p)) p))
      BlockSize) as [Hfull|Hpart].
    + rewrite length_app, length_take in Hfull. unfold BlockSize in Hfull.
      replace (Nat.min (BlockSize - length (dig_x d)) (length p))
        with (BlockSize - length (dig_x d))%nat
        by (unfold BlockSize; lia).
      set (n0 := (BlockSize - length (dig_x d))%nat).
      specialize (Htail (block blk (dig_s d) (dig_x d ++ take n0 p))
                        (drop n0 p)).
      destruct (if (BlockSize <=? length (drop n0 p))%nat then _ else _)
        as [st2 p2] eqn:Hif in Htail |- *.
      injection Htail as -> Hx3.
      assert (Hsplit : dig_x d ++ p = (dig_x d ++ take n0 p) ++ drop n0 p).
      { by rewrite <- app_assoc, take_drop. }
      assert (Hlen0 : length (dig_x d ++ take n0 p) = BlockSize).
      { rewrite length_app, length_take. unfold n0, BlockSize. lia. }
      f_equal. f_equal.
      * rewrite Hsplit. symmetry. apply block_app.
        rewrite Hlen0. done.
      * rewrite Hx3. rewrite Hsplit at 2.
        replace (length (dig_x d ++ p) / BlockSize * BlockSize)%nat
          with (length (dig_x d ++ take n0 p)
                + length (drop n0 p) / BlockSize * BlockSize)%nat.
        { by rewrite drop_app_add. }
        rewrite Hlen0, Hsplit, length_app, Hlen0. unfold BlockSize. lia.
    + rewrite length_app, length_take in Hpart. unfold BlockSize in Hpart.
      assert (Hp : (length p < 64 - length (dig_x d))%nat)
        by (unfold BlockSize in *; lia).
      replace (Nat.min (BlockSize - length (dig_x d)) (length p))
        with (length p) by (unfold BlockSize; lia).
      rewrite (take_ge p (length p)), (drop_ge p (length p)) by lia.
      rewrite (block_short (dig_s d) (dig_x d ++ p))
        by (rewrite length_app; unfold BlockSize; lia).
      replace (length (dig_x d ++ p) / BlockSize * BlockSize)%nat with 0%nat
        by (rewrite length_app; unfold BlockSize; lia).
      done.
  - assert (Hnil : dig_x d = []) by (apply nil_length_inv; lia).
    rewrite Hnil. simpl.
    specialize (Htail (dig_s d) p).
    destruct (if (BlockSize <=? length p)%nat then _ else _)
      as [st2 p2] eqn:Hif in Htail |- *.
    injection Htail as -> ->. done.
Qed.
End BlockDigestLaws.

Section BlockDigestStreams.
Context {W : Type}.
Variable blk : W -> list byte -> W.
Variable trailer : Z -> list byte.
Variable out : W -> list byte.
Variable init : W.

(** Every digest computer of the block shape honours the contract. *)
Lemma digest_New_streaming : streaming (digest_New blk trailer out init).
Proof.
  exists (fun d : digest W =>
            (length (dig_x d) < BlockSize)%nat /\ 0 <= dig_len d < 2 ^ 64).
  cbn [digest_New hWrite hcur hstate dig_x dig_len].
  split; [unfold BlockSize; simpl; lia|].
  split; [|split].
  - intros d p [Hx Hl]. rewrite digest_Write_normal by done.
    cbn [fst snd dig_x dig_len].
    split; [|done]. split.
    + rewrite length_drop. unfold BlockSize. lia.
    + unfold u64. apply Z.mod_pos_bound. lia.
  - intros d [Hx Hl]. rewrite digest_Write_normal by done.
    cbn [fst snd].
    rewrite app_nil_r, block_short by done.
    replace (length (dig_x d) / BlockSize * BlockSize)%nat with 0%nat
      by (unfold BlockSize in *; lia).
    destruct d as [ds dx dl]. cbn [dig_s dig_x dig_len drop] in *. f_equal.
    unfold u64, len. cbn [length Z.of_nat]. rewrite Z.add_0_r.
    apply Z.mod_small. lia.
  - intros d a b [Hx Hl].
    rewrite (digest_Write_normal blk d a) by done. cbn [fst snd].
    rewrite digest_Write_normal.
    2:{ cbn [dig_x]. rewrite length_drop. unfold BlockSize. lia. }
    rewrite digest_Write_normal by done. cbn [fst snd dig_s dig_x dig_len].
    set (D := dig_x d ++ a).
    set (n1 := (length D / BlockSize * BlockSize)%nat).
    assert (HD : D = take n1 D ++ drop n1 D) by (by rewrite take_drop).
    assert (Hn1 : length (take n1 D) = n1).
    { rewrite length_take. unfold n1, BlockSize. lia. }
    assert (Hmod : (length (take n1 D) mod BlockSize = 0)%nat).
    { rewrite Hn1. unfold n1, BlockSize. lia. }
    replace (dig_x d ++ a ++ b) with (take n1 D ++ (drop n1 D ++ b))
      by (rewrite !app_assoc, <- HD; unfold D; done).
    f_equal.
    + rewrite (block_app blk (dig_s d) (take n1 D) (drop n1 D ++ b) Hmod).
      f_equal.
      rewrite HD at 1. rewrite (block_app blk _ _ _ Hmod).
      apply block_short. rewrite length_drop. unfold n1, BlockSize. lia.
    + replace (length (take n1 D ++ drop n1 D ++ b) / BlockSize * BlockSize)%nat
        with (length (take n1 D)
              + length (drop n1 D ++ b) / BlockSize * BlockSize)%nat.
      { by rewrite drop_app_add. }
      rewrite (length_app (take n1 D)), Hn1.
      unfold n1, BlockSize. lia.
    + unfold u64, len. rewrite length_app, Nat2Z.inj_add.
      rewrite Zplus_mod_idemp_l. f_equal. lia.
Qed.
End BlockDigestStreams.

Lemma md5_streaming : streaming (md5.New ()).
Proof. apply digest_New_streaming. Qed.

Lemma sha1_streaming : streaming (sha1.New ()).
Proof. apply digest_New_streaming. Qed.

Lemma sha256_streaming : streaming (sha256.New ()).
Proof. apply digest_New_streaming. Qed.

(** ** Reference values of the digests *)

(** The digest of a string, through [Write] and [Sum] of a fresh object. *)
Lemma md5_vectors :
  map (fun t => EncodeToString
                  (Hash_Sum (Hash_Write (md5.New ()) (bytes_of_string t)).1 []))
      [""; "a"; "abc"; "message digest"; "abcdefghijklmnopqrstuvwxyz"]%string
  = [ "d41d8cd98f00b204e9800998ecf8427e";
      "0cc175b9c0f1b6a831c399e269772661";
      "900150983cd24fb0d6963f7d28e17f72";
      "f96b697d7cb7938d525a2f31aaf161d0";
      "c3fcd3d76192e4007dfb496cca67e13b" ]%string.
Proof. vm_compute. reflexivity. Qed.

Lemma sha1_vectors :
  map (fun t => EncodeToString
                  (Hash_Sum (Hash_Write (sha1.New ()) (bytes_of_string t)).1 []))
      [""; "abc";
       "abcdbcdecdefdefgefghfghighijhijkijkljklmklmnlmnomnopnopq"]%string
  = [ "da39a3ee5e6b4b0d3255bfef95601890afd80709";
      "a9993e364706816aba3e25717850c26c9cd0d89d";
      "84983e441c3bd26ebaae4aa1f95129e5e54670f1" ]%string.
Proof. vm_compute. reflexivity. Qed.

Lemma sha256_vectors :
  map (fun t => EncodeToString
                  (Hash_Sum (Hash_Write (sha256.New ()) (bytes_of_string t)).1 []))
      [""; "abc";
       "abcdbcdecdefdefgefghfghighijhijkijkljklmklmnlmnomnopnopq"]%string
  = [ "e3b0c44298fc1c149afbf4c8996fb92427ae41e4649b934ca495991b7852b855";
      "ba7816bf8f01cfea414140de5dae2223b00361a396177a9cb410ff61f20015ad";
      "248d6a61d20638b8e5c026930c3e6039a33ce45964ff2167f6ecedd419db06c1" ]%string.
Proof. vm_compute. reflexivity. Qed.

(** The hex digest has the width the descriptor announces. *)
Lemma boot_widths :
  Forall (fun d =>
            exists T s, heap registry0 !! d = Some T
                        /\ HashData registry0 d doubles.hello = Some s
                        /\ Z.of_nat (String.length s) = Width T)
         (Supported registry0).
Proof.
  repeat constructor; eexists; eexists;
    (split; [reflexivity|split; [vm_compute; reflexivity|reflexivity]]).
Qed.

(** ** Consequences of the contract, on objects *)

Lemma Hash_Write_eq h p :
  Hash_Write h p
  = (MkHash (hstate h) (hWrite h (hcur h) p).1 (hWrite h) (hSum h),
     (hWrite h (hcur h) p).2).
Proof. unfold Hash_Write. by destruct (hWrite h (hcur h) p). Qed.

Lemma streaming_Write_result h p :
  streaming h -> (Hash_Write h p).2 = (len p, None).
Proof.
  intros (Inv & H0 & Hw & _). rewrite Hash_Write_eq. simpl.
  by apply Hw.
Qed.

Lemma streaming_Write h p : streaming h -> streaming (Hash_Write h p).1.
Proof.
  intros (Inv & H0 & Hw & Hnil & Happ). rewrite Hash_Write_eq. simpl.
  exists Inv. simpl. split; [by apply Hw|done].
Qed.

Lemma streaming_Write_nil h : streaming h -> (Hash_Write h []).1 = h.
Proof.
  intros (Inv & H0 & Hw & Hnil & Happ). rewrite Hash_Write_eq. simpl.
  rewrite Hnil by done. by destruct h.
Qed.

Lemma streaming_Write_app h a b :
  streaming h ->
  (Hash_Write (Hash_Write h a).1 b).1 = (Hash_Write h (a ++ b)).1.
Proof.
  intros (Inv & H0 & Hw & Hnil & Happ). rewrite !Hash_Write_eq. simpl.
  by rewrite Happ.
Qed.

(** ** Reading a file to its end *)

Lemma File_Read_end f size :
  f_read_fault f = None ->
  (length (f_data f) <= f_off f)%nat ->
  File_Read f size = (f, ([], Some EOF)).
Proof.
  intros Hnf Hend. unfold File_Read. rewrite Hnf.
  destruct (Nat.leb_spec (length (f_data f)) (f_off f)); [done|lia].
Qed.

Lemma File_Read_data f size :
  f_read_fault f = None ->
  (f_off f < length (f_data f))%nat ->
  File_Read f size
  = ({| f_data := f_data f;
        f_off := (f_off f + Nat.min size (length (f_data f) - f_off f))%nat;
        f_read_fault := f_read_fault f; f_seek_fault := f_seek_fault f |},
     (take (Nat.min size (length (f_data f) - f_off f))
           (drop (f_off f) (f_data f)), None)).
Proof.
  intros Hnf Hlt. unfold File_Read. rewrite Hnf.
  destruct (Nat.leb_spec (length (f_data f)) (f_off f)); [lia|done].
Qed.

(** With a digest computer that honours the contract and a source whose
    reads do not fail, [io.Copy] terminates without error, has fed the
    hasher everything from the read position to the end, and leaves the
    source drained. *)
Lemma copy_loop_streaming fuel : forall h f written,
  streaming h ->
  f_read_fault f = None ->
  (length (f_data f) - f_off f < fuel)%nat ->
  exists written',
    copy_loop fuel h f written
    = Some ((Hash_Write h (drop (f_off f) (f_data f))).1, drained f,
            (written', None)).
Proof.
  induction fuel as [|fuel IH]; intros h f written Hs Hnf Hfuel; [lia|].
  cbn [copy_loop].
  destruct (Nat.le_gt_cases (length (f_data f)) (f_off f)) as [Hend|Hlt].
  - rewrite File_Read_end by done. cbn.
    exists written. rewrite drop_ge by done.
    rewrite streaming_Write_nil by done.
    do 3 f_equal. unfold drained. destruct f as [fd fo fr fs]. simpl in *.
    f_equal. lia.
  - rewrite File_Read_data by done.
    set (n := Nat.min copy_buffer_size (length (f_data f) - f_off f)).
    set (buf := take n (drop (f_off f) (f_data f))).
    assert (Hn : (0 < n)%nat) by (unfold n, copy_buffer_size; lia).
    assert (Hbuf : len buf = Z.of_nat n).
    { unfold len, buf. rewrite length_take, length_drop. unfold n. lia. }
    cbn beta iota.
    destruct (Z.ltb_spec 0 (len buf)) as [_|Hle]; [|lia].
    pose proof (streaming_Write_result h buf Hs) as Hres.
    destruct (Hash_Write h buf) as [h1 [nw ew]] eqn:Hw.
    simpl in Hres. injection Hres as -> ->.
    destruct (Z.ltb_spec (len buf) 0) as [Hneg|_]; [lia|].
    rewrite Z.ltb_irrefl. cbn [orb]. cbn beta iota.
    rewrite Z.eqb_refl. cbn beta iota.
    edestruct (IH h1
      {| f_data := f_data f; f_off := (f_off f + n)%nat;
         f_read_fault := f_read_fault f; f_seek_fault := f_seek_fault f |}
      (wrap64 (written + len buf))) as [written' Hrec].
    + replace h1 with (Hash_Write h buf).1 by (by rewrite Hw).
      by apply streaming_Write.
    + done.
    + simpl. lia.
    + exists written'. rewrite Hrec. simpl.
      replace h1 with (Hash_Write h buf).1 by (by rewrite Hw).
      rewrite streaming_Write_app by done.
      unfold buf. rewrite <- drop_drop, take_drop.
      do 3 f_equal. unfold drained. cbn [f_data f_off f_read_fault f_seek_fault].
      f_equal. unfold n. lia.
Qed.

(** ** HashReader and HashFile *)

Lemma HashReader_streaming r hashType T file :
  heap r !! hashType = Some T ->
  streaming (NewFunc T ()) ->
  f_read_fault file = None ->
  exists str,
    HashData r hashType (drop (f_off file) (f_data file)) = Some str
    /\ HashReader r hashType file = Some (drained file, (str, None)).
Proof.
  intros HT Hs Hnf. unfold HashData, HashReader, io_Copy. rewrite HT.
  cbn [mbind option_bind].
  destruct (copy_loop_streaming (S (length (f_data file) - f_off file))
              (NewFunc T ()) file 0 Hs Hnf) as [written' ->]; [lia|].
  cbn [mbind option_bind]. eauto.
Qed.

(** C6. For a source whose reads do not fail and a digest computer that
    honours the [hash.Hash] contract, [HashFile] computes the digest of
    the bytes the source holds from its read position to its end: of its
    full contents when the source is at its start.  When [Seek] fails with
    [e], that digest string is returned together with [e]; when [Seek]
    succeeds, the digest is returned with no error and the source is back at
    position 0, so that its next read returns the contents from the
    beginning. *)
Theorem HashFile_digest_then_rewind r hashType T file :
  heap r !! hashType = Some T ->
  streaming (NewFunc T ()) ->
  f_read_fault file = None ->
  exists str,
    HashData r hashType (drop (f_off file) (f_data file)) = Some str
    /\ (f_off file = 0%nat -> HashData r hashType (f_data file) = Some str)
    /\ (forall e, f_seek_fault file = Some e ->
          HashFile r hashType file = Some (drained file, (str, Some e)))
    /\ (f_seek_fault file = None ->
          HashFile r hashType file = Some (rewound file, (str, None))
          /\ f_off (rewound file) = 0%nat
          /\ (File_Read (rewound file) (length (f_data file))).2.1
             = f_data file).
Proof.
  intros HT Hs Hnf.
  destruct (HashReader_streaming r hashType T file HT Hs Hnf)
    as (str & Hdata & Hreader).
  exists str. split; [done|]. split; [|split].
  - intros H0. by rewrite H0 in Hdata.
  - intros e He. unfold HashFile. rewrite Hreader. simpl.
    unfold File_Seek. simpl. by rewrite He.
  - intros Hsk. split; [|split; [done|]].
    + unfold HashFile. rewrite Hreader. simpl.
      unfold File_Seek, rewound. simpl. by rewrite Hsk.
    + unfold File_Read, rewound. simpl. rewrite Hnf.
      destruct (f_data file) as [|b bs] eqn:Hd; [done|].
      cbn [length Nat.leb fst snd]. rewrite Nat.sub_0_r, Nat.min_id.
      rewrite drop_0. apply take_ge. simpl. lia.
Qed.

Lemma HashFile_digest_then_rewind_witness :
  exists str,
    HashData registry0 MD5
      (drop (f_off doubles.stuck_file) (f_data doubles.stuck_file)) = Some str
    /\ (f_off doubles.stuck_file = 0%nat ->
        HashData registry0 MD5 (f_data doubles.stuck_file) = Some str)
    /\ (forall e, f_seek_fault doubles.stuck_file = Some e ->
          HashFile registry0 MD5 doubles.stuck_file
          = Some (drained doubles.stuck_file, (str, Some e)))
    /\ (f_seek_fault doubles.stuck_file = None ->
          HashFile registry0 MD5 doubles.stuck_file
          = Some (rewound doubles.stuck_file, (str, None))
          /\ f_off (rewound doubles.stuck_file) = 0%nat
          /\ (File_Read (rewound doubles.stuck_file)
                (length (f_data doubles.stuck_file))).2.1
             = f_data doubles.stuck_file).
Proof.
  apply (HashFile_digest_then_rewind registry0 MD5
           (MkHashType 32 "md5" "MD5" md5.New) doubles.stuck_file).
  - reflexivity.
  - apply digest_New_streaming.
  - reflexivity.
Defined.

(** The two outcomes on the five bytes of "hello": a failing [Seek] still
    yields the digest, a successful one yields it with the file rewound. *)
Example HashFile_hello_stuck :
  HashFile registry0 MD5 doubles.stuck_file
  = Some (drained doubles.stuck_file,
          ("5d41402abc4b2a76b9719d911017c592"%string,
           Some (ErrOther "seek failed"))).
Proof. vm_compute. reflexivity. Qed.

Example HashFile_hello_rewound :
  HashFile registry0 MD5 (MkFile doubles.hello 0 None None)
  = Some (MkFile doubles.hello 0 None None,
          ("5d41402abc4b2a76b9719d911017c592"%string, None)).
Proof. vm_compute. reflexivity. Qed.

(** A failing read: the empty string and the wrapped error, no rewind. *)
Example HashFile_read_failure :
  HashFile registry0 MD5
    (MkFile doubles.hello 0 (Some (3%nat, ErrOther "input/output error")) None)
  = Some (MkFile doubles.hello 3
            (Some (3%nat, ErrOther "input/output error")) None,
          (EmptyString,
           Some (NewErr (ErrOther "input/output error") "HashReader error"))).
Proof. vm_compute. reflexivity. Qed.

(** ** HashInfo.String *)

Lemma String_length_pos (s : string) :
  (0 <? String.length s)%nat = true <-> s <> EmptyString.
Proof. destruct s; simpl; split; (done || congruence). Qed.

Lemma String_step_None r l : foldl (String_step r) None l = None.
Proof. induction l as [|kv l IH]; [done|]. simpl. apply IH. Qed.

(** The loop appends one line per entry with a non-empty digest, in the
    order of the visit, and nothing for the others. *)
Lemma String_step_fold r (l : list (ptr * string)) :
  (forall kv, kv ∈ l -> kv.2 <> EmptyString -> is_Some (heap r !! kv.1)) ->
  forall acc, exists tmp,
    foldl (String_step r) (Some acc) l = Some (acc ++ tmp)
    /\ Forall2 (is_line_of r) tmp
         (filter (fun kv : ptr * string => kv.2 <> EmptyString) l).
Proof.
  induction l as [|[k s] l IH]; intros Hv acc.
  - exists []. by rewrite app_nil_r.
  - rewrite filter_cons. cbn [foldl snd].
    destruct (decide (s <> EmptyString)) as [Hs|Hs].
    + destruct (Hv (k, s) (list_elem_of_here _ _) Hs) as [T HT].
      simpl in HT.
      assert (Hstep : String_step r (Some acc) (k, s)
                      = Some (acc ++ [(Name T ++ ":" ++ s)%string])).
      { unfold String_step. simpl.
        by rewrite (proj2 (String_length_pos s) Hs), HT. }
      rewrite Hstep.
      destruct (IH (fun kv Hin => Hv kv (list_elem_of_further _ _ _ Hin))
                   (acc ++ [(Name T ++ ":" ++ s)%string]))
        as (tmp & -> & Hall).
      exists ((Name T ++ ":" ++ s)%string :: tmp).
      split; [by rewrite <- app_assoc|].
      constructor; [by exists T|done].
    + assert (Hstep : String_step r (Some acc) (k, s) = Some acc).
      { unfold String_step. simpl.
        destruct (0 <? String.length s)%nat eqn:Hpos; [|done].
        apply String_length_pos in Hpos. done. }
      rewrite Hstep.
      apply IH. intros kv Hin. apply Hv. by right.
Qed.

Lemma String_tmp_spec range r hi :
  valid_range range ->
  (forall k s, hi_h hi !! k = Some s -> s <> EmptyString ->
               is_Some (heap r !! k)) ->
  exists tmp entries,
    HashInfo_String range r hi = Some (Join tmp newline)
    /\ entries ≡ₚ filter (fun kv : ptr * string => kv.2 <> EmptyString)
                     (map_to_list (hi_h hi))
    /\ Forall2 (is_line_of r) tmp entries.
Proof.
  intros Hr Hv.
  destruct (String_step_fold r (range string (hi_h hi))) with (acc := @nil string)
    as (tmp & Hfold & Hall).
  { intros [k s] Hin. apply Hv. apply elem_of_map_to_list.
    by rewrite <- (Hr string (hi_h hi)). }
  exists tmp, (filter (fun kv : ptr * string => kv.2 <> EmptyString)
                 (range string (hi_h hi))).
  split; [|split; [|done]].
  - unfold HashInfo_String, String_tmp. by rewrite Hfold.
  - by rewrite (Hr string (hi_h hi)).
Qed.

(** C5. Whatever the order in which the map is visited, [String()] is the
    join by newlines of exactly one line "<Name>:<digest>" per entry whose
    digest is not empty, and of nothing else.  The result set
    {MD5: "", SHA1: "abc123"} renders as the single line sha1:abc123. *)
Theorem String_one_line_per_digest range r hi :
  valid_range range ->
  (forall k s, hi_h hi !! k = Some s -> s <> EmptyString ->
               is_Some (heap r !! k)) ->
  (exists tmp entries,
     HashInfo_String range r hi = Some (Join tmp newline)
     /\ entries ≡ₚ filter (fun kv : ptr * string => kv.2 <> EmptyString)
                      (map_to_list (hi_h hi))
     /\ Forall2 (is_line_of r) tmp entries)
  /\ HashInfo_String range registry0 doubles.info_sha1_only
     = Some "sha1:abc123"%string.
Proof.
  intros Hr Hv. split; [by apply String_tmp_spec|].
  destruct (String_tmp_spec range registry0 doubles.info_sha1_only Hr)
    as (tmp & entries & -> & Hperm & Hall).
  { intros k s Hk _. apply lookup_lt_is_Some.
    unfold doubles.info_sha1_only in Hk. simpl in Hk.
    apply lookup_insert_Some in Hk as [[<- _]|[_ Hk]]; [vm_compute; lia|].
    apply lookup_insert_Some in Hk as [[<- _]|[_ Hk]]; [vm_compute; lia|].
    by rewrite lookup_empty in Hk. }
  assert (Hf : filter (fun kv : ptr * string => kv.2 <> EmptyString)
                 (map_to_list (hi_h doubles.info_sha1_only))
               = [(SHA1, "abc123"%string)]) by (vm_compute; reflexivity).
  rewrite Hf in Hperm. apply Permutation_singleton_r in Hperm as ->.
  apply Forall2_cons_inv_r in Hall as (line & tmp' & (T & HT & ->) & Hnil & ->).
  apply Forall2_nil_inv_r in Hnil as ->.
  injection HT as <-. reflexivity.
Qed.

Lemma String_one_line_per_digest_witness :
  (exists tmp entries,
     HashInfo_String doubles.range_bwd registry0 doubles.info_sha1_only
     = Some (Join tmp newline)
     /\ entries ≡ₚ filter (fun kv : ptr * string => kv.2 <> EmptyString)
                      (map_to_list (hi_h doubles.info_sha1_only))
     /\ Forall2 (is_line_of registry0) tmp entries)
  /\ HashInfo_String doubles.range_bwd registry0 doubles.info_sha1_only
     = Some "sha1:abc123"%string.
Proof.
  apply (String_one_line_per_digest doubles.range_bwd registry0
           doubles.info_sha1_only).
  - intros A m. symmetry. apply Permutation_rev.
  - intros k s Hk _. apply lookup_lt_is_Some.
    unfold doubles.info_sha1_only in Hk. simpl in Hk.
    apply lookup_insert_Some in Hk as [[<- _]|[_ Hk]]; [vm_compute; lia|].
    apply lookup_insert_Some in Hk as [[<- _]|[_ Hk]]; [vm_compute; lia|].
    by rewrite lookup_empty in Hk.
Defined.

(** ** Fan-out: every hasher sees every write *)

(** With digest computers that honour the contract, a write through the
    multiwriter succeeds with the full length and advances each referenced
    hasher by the same bytes, whatever the order of the references. *)
Lemma multiWriter_Write_fanout ws p :
  NoDup ws ->
  forall h : gmap ptr Hash,
    (forall k o, h !! k = Some o -> streaming o) ->
    (multiWriter_Write ws h p).2 = (len p, None)
    /\ forall k,
        (multiWriter_Write ws h p).1 !! k
        = if decide (k ∈ ws)
          then (fun o => (Hash_Write o p).1) <$> h !! k
          else h !! k.
Proof.
  induction ws as [|k0 ws IH]; intros Hnd h Hs; cbn [multiWriter_Write].
  - split; [done|]. intros k. cbn [fst].
    by rewrite decide_False by apply not_elem_of_nil.
  - apply NoDup_cons in Hnd as [Hk0 Hnd].
    destruct (h !! k0) as [o|] eqn:Hk.
    + pose proof (streaming_Write_result o p (Hs _ _ Hk)) as Hres.
      destruct (Hash_Write o p) as [o1 [n err]] eqn:Hw.
      simpl in Hres. injection Hres as -> ->. rewrite Z.eqb_refl.
      cbn beta iota.
      destruct (IH Hnd (<[k0 := o1]> h)) as [Hr Hl].
      { intros k o' Hk'. apply lookup_insert_Some in Hk' as [[_ <-]|[_ Hk']].
        - replace o1 with (Hash_Write o p).1 by (by rewrite Hw).
          apply streaming_Write. by apply (Hs k0).
        - by apply (Hs k). }
      split; [done|]. intros k. rewrite Hl.
      destruct (decide (k = k0)) as [->|Hne].
      * rewrite decide_False by done. rewrite decide_True by apply list_elem_of_here.
        rewrite lookup_insert_eq, Hk. simpl. by rewrite Hw.
      * rewrite lookup_insert_ne by done.
        destruct (decide (k ∈ ws)) as [Hin|Hnin].
        -- by rewrite decide_True by (by right).
        -- rewrite decide_False; [done|].
           intros Hin. apply elem_of_cons in Hin as [?|?]; done.
    + destruct (IH Hnd h Hs) as [Hr Hl]. split; [done|].
      intros k. rewrite Hl.
      destruct (decide (k = k0)) as [->|Hne].
      * rewrite decide_False by done. rewrite decide_True by apply list_elem_of_here.
        by rewrite Hk.
      * destruct (decide (k ∈ ws)) as [Hin|Hnin].
        -- by rewrite decide_True by (by right).
        -- rewrite decide_False; [done|].
           intros Hin. apply elem_of_cons in Hin as [?|?]; done.
Qed.

Lemma NewMultiHasher_ready range r types m :
  valid_range range ->
  NewMultiHasher range r types = Some m ->
  (forall t T, t ∈ types -> heap r !! t = Some T -> streaming (NewFunc T ())) ->
  fan_out_ready m.
Proof.
  intros Hr Hnew Hst. unfold NewMultiHasher in Hnew.
  destruct (fromTypes r types) as [hashers|] eqn:Hf; [|done].
  injection Hnew as <-. unfold fan_out_ready, toMultiWriter. simpl.
  split; [|split].
  - rewrite (Hr Hash hashers). apply NoDup_fst_map_to_list.
  - intros k. rewrite (Hr Hash hashers). rewrite list_elem_of_fmap. split.
    + intros [[k' o] [-> Hin]]. apply elem_of_map_to_list in Hin. eauto.
    + intros [o Ho]. exists (k, o). split; [done|].
      by apply elem_of_map_to_list.
  - intros k o Ho. apply (fromTypes_lookup _ _ _ _ _ Hf) in Ho
      as (Hin & T & HT & ->). by apply (Hst k).
Qed.

Lemma MultiHasher_Write_fanout m p :
  fan_out_ready m ->
  MultiHasher_Write m p
  = ({| mh_w := mh_w m; mh_size := wrap64 (mh_size m + len p);
        mh_h := (fun o => (Hash_Write o p).1) <$> mh_h m |},
     (len p, None))
  /\ fan_out_ready (MultiHasher_Write m p).1.
Proof.
  intros (Hnd & Hw & Hs).
  destruct (multiWriter_Write_fanout (mh_w m) p Hnd (mh_h m) Hs) as [Hr Hl].
  assert (Heq : MultiHasher_Write m p
    = ({| mh_w := mh_w m; mh_size := wrap64 (mh_size m + len p);
          mh_h := (fun o => (Hash_Write o p).1) <$> mh_h m |},
       (len p, None))).
  { unfold MultiHasher_Write.
    destruct (multiWriter_Write (mh_w m) (mh_h m) p) as [h1 [n err]].
    simpl in Hr, Hl. injection Hr as -> ->. do 2 f_equal.
    apply map_eq. intros k. rewrite Hl, lookup_fmap.
    destruct (decide (k ∈ mh_w m)) as [Hin|Hnin]; [done|].
    destruct (mh_h m !! k) as [o|] eqn:Hk; [|done].
    destruct Hnin. apply Hw. eauto. }
  split; [done|]. rewrite Heq. unfold fan_out_ready. cbn [fst mh_w mh_h].
  split; [done|]. split.
  - intros k. rewrite lookup_fmap, fmap_is_Some. apply Hw.
  - intros k o Ho. rewrite lookup_fmap in Ho.
    destruct (mh_h m !! k) as [o0|] eqn:Hk; [|done].
    injection Ho as <-. apply streaming_Write. by apply (Hs k).
Qed.

Lemma MultiHasher_Writes_fanout ps : forall m,
  fan_out_ready m ->
  mh_h (MultiHasher_Writes m ps).1
  = (fun o => (Hash_Write o (concat ps)).1) <$> mh_h m.
Proof.
  induction ps as [|p ps IH]; intros m Hm; simpl.
  - apply map_eq. intros k. rewrite lookup_fmap.
    destruct (mh_h m !! k) as [o|] eqn:Hk; [|done]. simpl.
    destruct Hm as (_ & _ & Hs).
    by rewrite streaming_Write_nil by (by apply (Hs k)).
  - destruct (MultiHasher_Write_fanout m p Hm) as [Heq Hm1].
    destruct (MultiHasher_Write m p) as [m1 res]. simpl in Hm1.
    specialize (IH m1 Hm1).
    destruct (MultiHasher_Writes m1 ps) as [m2 ress]. simpl in *.
    injection Heq as -> _. rewrite IH. simpl.
    apply map_eq. intros k. rewrite !lookup_fmap.
    destruct (mh_h m !! k) as [o|] eqn:Hk; [|done]. simpl.
    destruct Hm as (_ & _ & Hs).
    by rewrite streaming_Write_app by (by apply (Hs k)).
Qed.

(** X6. The multi-algorithm property, for data written in any number of
    pieces: each requested algorithm ends with the digest that [HashData]
    computes in one pass over the concatenation. *)
Lemma MultiHasher_chunks_agree_with_HashData range r types m ps X :
  valid_range range ->
  NewMultiHasher range r types = Some m ->
  (forall t T, t ∈ types -> heap r !! t = Some T -> streaming (NewFunc T ())) ->
  X ∈ types ->
  exists dg,
    MultiHasher_Sum (MultiHasher_Writes m ps).1 X = (dg, None)
    /\ HashData r X (concat ps) = Some (EncodeToString dg)
    /\ HashInfo_GetHash (GetHashInfo range (MultiHasher_Writes m ps).1) X
       = EncodeToString dg.
Proof.
  intros Hr Hnew Hst HX.
  pose proof (NewMultiHasher_ready range r types m Hr Hnew Hst) as Hm.
  pose proof (MultiHasher_Writes_fanout ps m Hm) as Hh.
  unfold NewMultiHasher in Hnew.
  destruct (fromTypes r types) as [hashers|] eqn:Hf; [|done].
  injection Hnew as <-. simpl in Hh.
  destruct (proj2 (fromTypes_dom r types hashers X Hf) HX) as [o Ho].
  destruct (proj1 (fromTypes_lookup r types hashers X o Hf) Ho)
    as (_ & T & HT & ->).
  exists (Hash_Sum (Hash_Write (NewFunc T ()) (concat ps)).1 []).
  unfold MultiHasher_Sum, HashData, HashInfo_GetHash.
  rewrite (GetHashInfo_fmap _ _ Hr), lookup_fmap, Hh, lookup_fmap, Ho, HT.
  done.
Qed.

(** ** A failing write among several hashers *)

(** One failing writer among two: the call reports the failing writer's
    count and error and the counter takes that count; whether the other
    hasher has seen the bytes depends on the order of the references. *)
Example partial_fan_out_failing_first :
  (m ← NewMultiHasher doubles.range_fwd doubles.registry_limited
         [MD5; doubles.LIMITED];
   Some (mh_w m,
         (MultiHasher_Write m doubles.hello).2,
         MultiHasher_Size (MultiHasher_Write m doubles.hello).1,
         HashInfo_GetHash
           (GetHashInfo doubles.range_fwd (MultiHasher_Write m doubles.hello).1)
           MD5))
  = Some ([doubles.LIMITED; MD5],
          (3, Some (ErrOther "no space left")),
          3,
          "d41d8cd98f00b204e9800998ecf8427e"%string).
Proof. vm_compute. reflexivity. Qed.

Example partial_fan_out_failing_last :
  (m ← NewMultiHasher doubles.range_bwd doubles.registry_limited
         [MD5; doubles.LIMITED];
   Some (mh_w m,
         (MultiHasher_Write m doubles.hello).2,
         MultiHasher_Size (MultiHasher_Write m doubles.hello).1,
         HashInfo_GetHash
           (GetHashInfo doubles.range_fwd (MultiHasher_Write m doubles.hello).1)
           MD5))
  = Some ([MD5; doubles.LIMITED],
          (3, Some (ErrOther "no space left")),
          3,
          "5d41402abc4b2a76b9719d911017c592"%string).
Proof. vm_compute. reflexivity. Qed.

(** A writer that takes fewer bytes than offered without an error: the
    multiwriter turns that into [ErrShortWrite], and the counter takes the
    short count. *)
Example short_write_counted :
  (m ← NewMultiHasher doubles.range_fwd doubles.registry_short
         [doubles.SHORT];
   Some ((MultiHasher_Write m doubles.hello).2,
         MultiHasher_Size (MultiHasher_Write m doubles.hello).1))
  = Some ((3, Some ErrShortWrite), 3).
Proof. vm_compute. reflexivity. Qed.

(* ===================================================================== *)
(** * Further properties of the registry                                 *)
(* ===================================================================== *)

Lemma indexes_empty proj : indexes proj [] ∅.
Proof.
  intros n d. rewrite lookup_empty. split; [done|].
  intros [(T & HT & _) _]. by rewrite lookup_nil in HT.
Qed.

(** Allocating one more descriptor and storing its address under the
    string it carries keeps the map an index. *)
Lemma indexes_register proj hp m T :
  indexes proj hp m ->
  indexes proj (hp ++ [T]) (<[proj T := length hp]> m).
Proof.
  intros Hidx n d. destruct (decide (proj T = n)) as [<-|Hne].
  - rewrite lookup_insert_eq. split.
    + intros [= <-]. split.
      * exists T. split; [|done]. rewrite lookup_app_r by lia.
        by rewrite Nat.sub_diag.
      * intros d' T' Hd' _. apply lookup_lt_Some in Hd'.
        rewrite length_app in Hd'. simpl in Hd'. lia.
    + intros [(T0 & HT0 & _) Hmax]. f_equal.
      apply lookup_lt_Some in HT0. rewrite length_app in HT0. simpl in HT0.
      assert (length hp <= d)%nat; [|lia].
      apply (Hmax (length hp) T); [|done].
      rewrite lookup_app_r by lia. by rewrite Nat.sub_diag.
  - rewrite lookup_insert_ne by done. rewrite (Hidx n d).
    unfold latest_named. split.
    + intros [(T0 & HT0 & Hn) Hmax]. split.
      * exists T0. split; [by apply lookup_app_l_Some|done].
      * intros d' T' Hd' Hn'. apply lookup_app_Some in Hd' as [Hd'|[_ Hd']].
        -- by apply (Hmax d' T').
        -- apply list_lookup_singleton_Some in Hd' as [_ <-]. done.
    + intros [(T0 & HT0 & Hn) Hmax].
      assert (HT0' : hp !! d = Some T0).
      { apply lookup_app_Some in HT0 as [HT0|[_ HT0]]; [done|].
        apply list_lookup_singleton_Some in HT0 as [_ <-]. done. }
      split; [by exists T0|].
      intros d' T' Hd' Hn'. apply (Hmax d' T'); [|done].
      by apply lookup_app_l_Some.
Qed.

Lemma RegisterHash_indexes r name alias width newFunc :
  indexes Name (heap r) (name2hash r) ->
  indexes Alias (heap r) (alias2hash r) ->
  indexes Name (heap (RegisterHash r name alias width newFunc).1)
          (name2hash (RegisterHash r name alias width newFunc).1)
  /\ indexes Alias (heap (RegisterHash r name alias width newFunc).1)
             (alias2hash (RegisterHash r name alias width newFunc).1).
Proof.
  intros Hn Ha. split.
  - apply (indexes_register Name (heap r) (name2hash r)
             (MkHashType width name alias newFunc) Hn).
  - apply (indexes_register Alias (heap r) (alias2hash r)
             (MkHashType width name alias newFunc) Ha).
Qed.

Lemma RegisterHash_indexes_pair r name alias width newFunc :
  indexes Name (heap r) (name2hash r)
  /\ indexes Alias (heap r) (alias2hash r) ->
  indexes Name (heap (RegisterHash r name alias width newFunc).1)
          (name2hash (RegisterHash r name alias width newFunc).1)
  /\ indexes Alias (heap (RegisterHash r name alias width newFunc).1)
             (alias2hash (RegisterHash r name alias width newFunc).1).
Proof. intros [Hn Ha]. by apply RegisterHash_indexes. Qed.

Lemma reachable_indexes r :
  reachable r ->
  indexes Name (heap r) (name2hash r)
  /\ indexes Alias (heap r) (alias2hash r).
Proof.
  induction 1 as [|r name alias width newFunc Hr [IHn IHa]].
  - change registry0 with
      (RegisterHash
         (RegisterHash
            (RegisterHash empty_registry "md5" "MD5" 32 md5.New).1
            "sha1" "SHA-1" 40 sha1.New).1
         "sha256" "SHA-256" 64 sha256.New).1.
    do 3 (apply RegisterHash_indexes_pair).
    split; apply indexes_empty.
  - by apply RegisterHash_indexes.
Qed.

Lemma latest_named_exists proj (hp : list HashType) n :
  (exists d T, hp !! d = Some T /\ proj T = n) ->
  exists d, latest_named proj hp n d.
Proof.
  induction hp as [|T hp IH] using rev_ind.
  - intros (d & T & HT & _). by rewrite lookup_nil in HT.
  - intros (d & T0 & HT0 & Hn).
    destruct (decide (proj T = n)) as [HT|HT].
    + exists (length hp). split.
      * exists T. split; [|done]. rewrite lookup_app_r by lia.
        by rewrite Nat.sub_diag.
      * intros d' T' Hd' _. apply lookup_lt_Some in Hd'.
        rewrite length_app in Hd'. simpl in Hd'. lia.
    + apply lookup_app_Some in HT0 as [HT0|[_ HT0]].
      2:{ apply list_lookup_singleton_Some in HT0 as [_ <-]. done. }
      destruct IH as [d0 [(T1 & HT1 & Hn1) Hmax]]; [by eauto|].
      exists d0. split.
      * exists T1. split; [by apply lookup_app_l_Some|done].
      * intros d' T' Hd' Hn'. apply lookup_app_Some in Hd' as [Hd'|[_ Hd']].
        -- by apply (Hmax d' T').
        -- apply list_lookup_singleton_Some in Hd' as [_ <-]. done.
Qed.

Lemma indexes_None proj hp m n :
  indexes proj hp m ->
  m !! n = None <-> forall d T, hp !! d = Some T -> proj T <> n.
Proof.
  intros Hidx. split.
  - intros Hnone d T HT Hn.
    destruct (latest_named_exists proj hp n) as [d0 Hd0]; [by eauto|].
    apply Hidx in Hd0. congruence.
  - intros Hno. destruct (m !! n) as [d|] eqn:Hd; [|done].
    apply Hidx in Hd as [(T & HT & Hn) _]. by destruct (Hno d T HT).
Qed.

(** X1. In every reachable registry, a lookup by canonical name returns
    the most recently registered descriptor that carries that name, and
    finds nothing exactly when no descriptor carries it; the same holds
    for lookups by alias. *)
Theorem lookup_returns_latest r :
  reachable r ->
  (forall n d, name2hash r !! n = Some d <-> latest_named Name (heap r) n d)
  /\ (forall n, name2hash r !! n = None <->
               forall d T, heap r !! d = Some T -> Name T <> n)
  /\ (forall a d, alias2hash r !! a = Some d <->
                 latest_named Alias (heap r) a d)
  /\ (forall a, alias2hash r !! a = None <->
               forall d T, heap r !! d = Some T -> Alias T <> a).
Proof.
  intros Hr. destruct (reachable_indexes r Hr) as [Hn Ha].
  split; [exact Hn|]. split; [intros n; by apply indexes_None|].
  split; [exact Ha|]. intros a. by apply indexes_None.
Qed.

Lemma lookup_returns_latest_witness :
  (forall n d, name2hash doubles.registry_twice !! n = Some d <->
               latest_named Name (heap doubles.registry_twice) n d)
  /\ (forall n, name2hash doubles.registry_twice !! n = None <->
               forall d T, heap doubles.registry_twice !! d = Some T ->
                           Name T <> n)
  /\ (forall a d, alias2hash doubles.registry_twice !! a = Some d <->
                 latest_named Alias (heap doubles.registry_twice) a d)
  /\ (forall a, alias2hash doubles.registry_twice !! a = None <->
               forall d T, heap doubles.registry_twice !! d = Some T ->
                           Alias T <> a).
Proof.
  apply (lookup_returns_latest doubles.registry_twice).
  apply reachable_register. apply reachable_boot.
Defined.

(** X2. [RegisterHash] returns a descriptor that was not allocated before
    and holds the four arguments; afterwards the name and the alias both
    look up to it, every other name and alias looks up as before, every
    older descriptor is unchanged, and [Supported] has gained the new
    descriptor at its end. *)
Theorem RegisterHash_frame r name alias width newFunc :
  let r1 := (RegisterHash r name alias width newFunc).1 in
  let d := (RegisterHash r name alias width newFunc).2 in
  heap r !! d = None
  /\ heap r1 !! d = Some (MkHashType width name alias newFunc)
  /\ name2hash r1 !! name = Some d
  /\ alias2hash r1 !! alias = Some d
  /\ (forall n, n <> name -> name2hash r1 !! n = name2hash r !! n)
  /\ (forall a, a <> alias -> alias2hash r1 !! a = alias2hash r !! a)
  /\ (forall d' T, heap r !! d' = Some T -> heap r1 !! d' = Some T)
  /\ Supported r1 = Supported r ++ [d].
Proof.
  intros r1 d.
  split; [apply RegisterHash_fresh|].
  split; [apply RegisterHash_deref|].
  split; [apply lookup_insert_eq|].
  split; [apply lookup_insert_eq|].
  split; [intros n Hn; by apply lookup_insert_ne|].
  split; [intros a Ha; by apply lookup_insert_ne|].
  split; [intros d' T; apply RegisterHash_keeps|done].
Qed.

Lemma reachable_Supported_seq r :
  reachable r -> Supported r = seq 0 (length (heap r)).
Proof.
  induction 1 as [|r name alias width newFunc Hr IH]; [reflexivity|].
  simpl. rewrite length_app, IH. simpl.
  by rewrite Nat.add_1_r, seq_S.
Qed.

Lemma reachable_prefix r :
  reachable r ->
  heap registry0 `prefix_of` heap r
  /\ Supported registry0 `prefix_of` Supported r.
Proof.
  induction 1 as [|r name alias width newFunc Hr [IHh IHs]]; [done|].
  simpl. split; by apply prefix_app_r.
Qed.

(** X3. In every reachable registry [Supported] lists every allocated
    descriptor exactly once, in the order of allocation, and begins with
    the three descriptors registered at start, which are never changed. *)
Theorem Supported_lists_every_descriptor r :
  reachable r ->
  Supported r = seq 0 (length (heap r))
  /\ NoDup (Supported r)
  /\ (forall d, d ∈ Supported r <-> is_Some (heap r !! d))
  /\ Supported registry0 `prefix_of` Supported r
  /\ heap registry0 `prefix_of` heap r.
Proof.
  intros Hr. pose proof (reachable_Supported_seq r Hr) as Hseq.
  destruct (reachable_prefix r Hr) as [Hh Hs].
  split; [done|]. rewrite Hseq.
  split; [apply NoDup_seq|]. split; [|by rewrite <- Hseq].
  intros d. rewrite elem_of_seq, lookup_lt_is_Some. lia.
Qed.

Lemma Supported_lists_every_descriptor_witness :
  Supported doubles.registry_twice
  = seq 0 (length (heap doubles.registry_twice))
  /\ NoDup (Supported doubles.registry_twice)
  /\ (forall d, d ∈ Supported doubles.registry_twice <->
               is_Some (heap doubles.registry_twice !! d))
  /\ Supported registry0 `prefix_of` Supported doubles.registry_twice
  /\ heap registry0 `prefix_of` heap doubles.registry_twice.
Proof.
  apply (Supported_lists_every_descriptor doubles.registry_twice).
  apply reachable_register. apply reachable_boot.
Defined.

(* ===================================================================== *)
(** * Further properties of the MultiHasher                              *)
(* ===================================================================== *)

(** X4. [NewMultiHasher] returns a hasher exactly when every requested
    type is an allocated descriptor (it dereferences each of them); the
    hasher then starts at size 0 and holds, for each requested type and for
    nothing else, a computer freshly made by that type's constructor. *)
Theorem NewMultiHasher_defined_iff range r types :
  (is_Some (NewMultiHasher range r types) <->
   forall t, t ∈ types -> is_Some (heap r !! t))
  /\ (forall m, NewMultiHasher range r types = Some m ->
        MultiHasher_Size m = 0
        /\ forall d o, mh_h m !! d = Some o <->
             d ∈ types /\ exists T, heap r !! d = Some T /\ o = NewFunc T ()).
Proof.
  unfold NewMultiHasher. split.
  - split.
    + intros [m Hm] t Ht.
      destruct (fromTypes r types) as [hashers|] eqn:Hf; [|done].
      destruct (proj2 (fromTypes_dom r types hashers t Hf) Ht) as [o Ho].
      apply (fromTypes_lookup r types hashers t o Hf) in Ho
        as (_ & T & HT & _). eauto.
    + intros Hv. destruct (fromTypes_is_Some r types Hv) as [hashers ->].
      simpl. eauto.
  - intros m Hm.
    destruct (fromTypes r types) as [hashers|] eqn:Hf; [|done].
    injection Hm as <-. split; [done|]. intros d o. simpl.
    by apply fromTypes_lookup.
Qed.

Lemma NewMultiHasher_defined_iff_witness :
  (is_Some (NewMultiHasher doubles.range_fwd registry0 [SHA256; 7%nat]) <->
   forall t, t ∈ [SHA256; 7%nat] -> is_Some (heap registry0 !! t))
  /\ NewMultiHasher doubles.range_fwd registry0 [SHA256; 7%nat] = None
  /\ exists m, NewMultiHasher doubles.range_fwd registry0 [SHA256] = Some m
               /\ MultiHasher_Size m = 0
               /\ mh_h m !! SHA256 = Some (sha256.New ()).
Proof.
  split; [apply (NewMultiHasher_defined_iff doubles.range_fwd registry0
                   [SHA256; 7%nat])|].
  split; [reflexivity|].
  eexists. split; [reflexivity|].
  destruct (proj2 (NewMultiHasher_defined_iff doubles.range_fwd registry0
                     [SHA256]) _ eq_refl) as [Hsize Hh].
  split; [exact Hsize|]. apply Hh.
  split; [by left|]. eexists. split; reflexivity.
Defined.

(** X5. The hashers a MultiHasher starts with depend only on which types
    were requested: repeating a type or changing the order of the list
    changes nothing. *)
Theorem NewMultiHasher_set_of_types range r types1 types2 m1 m2 :
  NewMultiHasher range r types1 = Some m1 ->
  NewMultiHasher range r types2 = Some m2 ->
  (forall d, d ∈ types1 <-> d ∈ types2) ->
  mh_h m1 = mh_h m2.
Proof.
  unfold NewMultiHasher. intros H1 H2 Hsame.
  destruct (fromTypes r types1) as [h1|] eqn:Hf1; [|done].
  destruct (fromTypes r types2) as [h2|] eqn:Hf2; [|done].
  injection H1 as <-. injection H2 as <-. simpl.
  apply map_eq. intros d. apply option_eq. intros o.
  rewrite (fromTypes_lookup r types1 h1 d o Hf1).
  rewrite (fromTypes_lookup r types2 h2 d o Hf2).
  by rewrite (Hsame d).
Qed.

Lemma NewMultiHasher_set_of_types_witness :
  exists m1 m2,
    NewMultiHasher doubles.range_fwd registry0 [MD5; SHA1; MD5] = Some m1
    /\ NewMultiHasher doubles.range_fwd registry0 [SHA1; MD5] = Some m2
    /\ mh_h m1 = mh_h m2.
Proof.
  eexists. eexists. split; [reflexivity|]. split; [reflexivity|].
  apply (NewMultiHasher_set_of_types doubles.range_fwd registry0
           [MD5; SHA1; MD5] [SHA1; MD5] _ _ eq_refl eq_refl).
  intros d. rewrite !elem_of_cons, !elem_of_nil. tauto.
Defined.

Lemma reachable_SHA1 r :
  reachable r -> heap r !! SHA1 = Some (MkHashType 40 "sha1" "SHA-1" sha1.New).
Proof.
  induction 1; [reflexivity|]. by apply RegisterHash_keeps.
Qed.

Lemma reachable_SHA256 r :
  reachable r ->
  heap r !! SHA256 = Some (MkHashType 64 "sha256" "SHA-256" sha256.New).
Proof.
  induction 1; [reflexivity|]. by apply RegisterHash_keeps.
Qed.

(** The three standard descriptors make computers that honour the
    contract. *)
Lemma standard_streaming r :
  reachable r ->
  forall t T, t ∈ [MD5; SHA1; SHA256] -> heap r !! t = Some T ->
              streaming (NewFunc T ()).
Proof.
  intros Hr t T Ht HT.
  apply elem_of_cons in Ht as [->|Ht].
  { rewrite (reachable_MD5 r Hr) in HT. injection HT as <-.
    apply digest_New_streaming. }
  apply elem_of_cons in Ht as [->|Ht].
  { rewrite (reachable_SHA1 r Hr) in HT. injection HT as <-.
    apply digest_New_streaming. }
  apply list_elem_of_singleton in Ht as ->.
  rewrite (reachable_SHA256 r Hr) in HT. injection HT as <-.
  apply digest_New_streaming.
Qed.

Lemma MultiHasher_chunks_agree_with_HashData_witness :
  exists m,
    NewMultiHasher doubles.range_fwd registry0 [MD5; SHA1; SHA256] = Some m
    /\ exists dg,
        MultiHasher_Sum (MultiHasher_Writes m doubles.pieces).1 SHA256
        = (dg, None)
        /\ HashData registry0 SHA256 (concat doubles.pieces)
           = Some (EncodeToString dg)
        /\ HashInfo_GetHash
             (GetHashInfo doubles.range_fwd
                (MultiHasher_Writes m doubles.pieces).1) SHA256
           = EncodeToString dg.
Proof.
  eexists. split; [reflexivity|].
  apply (MultiHasher_chunks_agree_with_HashData doubles.range_fwd registry0
           [MD5; SHA1; SHA256] _ doubles.pieces SHA256).
  - intros A m. reflexivity.
  - reflexivity.
  - apply standard_streaming, reachable_boot.
  - apply (bool_decide_unpack _). reflexivity.
Defined.

Lemma Writes_results_fanout ps : forall m,
  fan_out_ready m ->
  (MultiHasher_Writes m ps).2 = map (fun p => (len p, None)) ps.
Proof.
  induction ps as [|p ps IH]; intros m Hm; simpl; [done|].
  destruct (MultiHasher_Write_fanout m p Hm) as [Heq Hm1].
  destruct (MultiHasher_Write m p) as [m1 res]. simpl in Hm1.
  specialize (IH m1 Hm1).
  destruct (MultiHasher_Writes m1 ps) as [m2 ress]. simpl in *.
  injection Heq as _ ->. by rewrite IH.
Qed.

Lemma sum_counts_full (ps : list (list byte)) :
  sum_counts (map (fun p => (len p, @None error)) ps) = len (concat ps).
Proof.
  induction ps as [|p ps IH]; [done|].
  simpl. rewrite IH. unfold len. rewrite length_app. lia.
Qed.

(** X7. With digest computers that honour the [hash.Hash] contract, no
    [Write] of a MultiHasher fails or comes short: each returns the length
    of its buffer and no error, and [Size()] is the total number of bytes
    written, as an [int64]. *)
Theorem Writes_never_fail range r types m ps :
  valid_range range ->
  NewMultiHasher range r types = Some m ->
  (forall t T, t ∈ types -> heap r !! t = Some T -> streaming (NewFunc T ())) ->
  (MultiHasher_Writes m ps).2 = map (fun p => (len p, None)) ps
  /\ MultiHasher_Size (MultiHasher_Writes m ps).1 = wrap64 (len (concat ps)).
Proof.
  intros Hr Hnew Hst.
  pose proof (NewMultiHasher_ready range r types m Hr Hnew Hst) as Hm.
  pose proof (Writes_results_fanout ps m Hm) as Hres.
  split; [done|]. unfold MultiHasher_Size.
  assert (Hsize : mh_size m = 0).
  { unfold NewMultiHasher in Hnew.
    destruct (fromTypes r types); [|done]. by injection Hnew as <-. }
  rewrite MultiHasher_Writes_size by (rewrite Hsize; lia).
  by rewrite Hres, sum_counts_full, Hsize.
Qed.

Lemma Writes_never_fail_witness :
  exists m,
    NewMultiHasher doubles.range_fwd registry0 [MD5; SHA1; SHA256] = Some m
    /\ (MultiHasher_Writes m doubles.pieces).2
       = map (fun p => (len p, None)) doubles.pieces
    /\ MultiHasher_Size (MultiHasher_Writes m doubles.pieces).1
       = wrap64 (len (concat doubles.pieces)).
Proof.
  eexists. split; [reflexivity|].
  apply (Writes_never_fail doubles.range_fwd registry0 [MD5; SHA1; SHA256] _
           doubles.pieces).
  - intros A m. reflexivity.
  - reflexivity.
  - apply standard_streaming, reachable_boot.
Defined.

(** X8. For every MultiHasher and descriptor, the string [GetHashInfo()]
    holds for the descriptor, read with [GetHash], is the hex encoding of
    what [Sum] returns for it; for a descriptor the hasher was not built
    with, where [Sum] fails with [ErrUnsupported], [GetHash] gives the
    empty string. *)
Theorem GetHash_agrees_with_Sum range m d :
  valid_range range ->
  HashInfo_GetHash (GetHashInfo range m) d
  = match MultiHasher_Sum m d with
    | (dg, None) => EncodeToString dg
    | (_, Some _) => EmptyString
    end.
Proof.
  intros Hr. unfold HashInfo_GetHash, MultiHasher_Sum.
  rewrite (GetHashInfo_fmap range m Hr), lookup_fmap.
  by destruct (mh_h m !! d).
Qed.

Lemma GetHash_agrees_with_Sum_witness :
  HashInfo_GetHash (GetHashInfo doubles.range_bwd doubles.mh_limited) MD5
  = EmptyString
  /\ MultiHasher_Sum doubles.mh_limited MD5 = ([], Some ErrUnsupported).
Proof.
  split; [|reflexivity].
  rewrite (GetHash_agrees_with_Sum doubles.range_bwd doubles.mh_limited MD5).
  - reflexivity.
  - intros A m. symmetry. apply Permutation_rev.
Defined.

(** X9. A MultiHasher built for no type at all accepts every write in
    full, counts its bytes, and has a digest for no descriptor. *)
Theorem MultiHasher_without_types range r p d :
  valid_range range ->
  exists m,
    NewMultiHasher range r [] = Some m
    /\ (MultiHasher_Write m p).2 = (len p, None)
    /\ MultiHasher_Size (MultiHasher_Write m p).1 = wrap64 (len p)
    /\ MultiHasher_Sum (MultiHasher_Write m p).1 d = ([], Some ErrUnsupported).
Proof.
  intros Hr. eexists. split; [reflexivity|].
  assert (Hnil : range Hash ∅ = []).
  { apply Permutation_nil_r. rewrite (Hr Hash ∅). by rewrite map_to_list_empty. }
  unfold MultiHasher_Write, toMultiWriter, MultiHasher_Sum, MultiHasher_Size.
  simpl. rewrite Hnil. simpl. by rewrite lookup_empty.
Qed.

Lemma MultiHasher_without_types_witness :
  exists m,
    NewMultiHasher doubles.range_fwd registry0 [] = Some m
    /\ (MultiHasher_Write m doubles.hello).2 = (len doubles.hello, None)
    /\ MultiHasher_Size (MultiHasher_Write m doubles.hello).1
       = wrap64 (len doubles.hello)
    /\ MultiHasher_Sum (MultiHasher_Write m doubles.hello).1 MD5
       = ([], Some ErrUnsupported).
Proof.
  apply (MultiHasher_without_types doubles.range_fwd registry0 doubles.hello
           MD5).
  intros A m. reflexivity.
Defined.

(** ** What a write does to each hasher *)

Lemma MultiHasher_Write_w m p : mh_w (MultiHasher_Write m p).1 = mh_w m.
Proof.
  unfold MultiHasher_Write.
  by destruct (multiWriter_Write (mh_w m) (mh_h m) p) as [h1 [n err]].
Qed.

Lemma MultiHasher_Writes_w ps : forall m,
  mh_w (MultiHasher_Writes m ps).1 = mh_w m.
Proof.
  induction ps as [|p ps IH]; intros m; simpl; [done|].
  pose proof (MultiHasher_Write_w m p) as Hw.
  destruct (MultiHasher_Write m p) as [m1 res].
  specialize (IH m1).
  destruct (MultiHasher_Writes m1 ps) as [m2 ress]. simpl in *. congruence.
Qed.

Lemma NewMultiHasher_wired range r types m :
  valid_range range ->
  NewMultiHasher range r types = Some m ->
  wired m /\ forall k, k ∈ mh_w m <-> k ∈ types.
Proof.
  intros Hr Hnew. unfold NewMultiHasher in Hnew.
  destruct (fromTypes r types) as [hashers|] eqn:Hf; [|done].
  injection Hnew as <-. unfold wired, toMultiWriter. simpl.
  assert (Hkeys : forall k, k ∈ (range Hash hashers).*1 <-> is_Some (hashers !! k)).
  { intros k. rewrite (Hr Hash hashers). rewrite list_elem_of_fmap. split.
    - intros [[k' o] [-> Hin]]. apply elem_of_map_to_list in Hin. eauto.
    - intros [o Ho]. exists (k, o). split; [done|].
      by apply elem_of_map_to_list. }
  split; [split; [|done]|].
  - rewrite (Hr Hash hashers). apply NoDup_fst_map_to_list.
  - intros k. rewrite Hkeys. by apply (fromTypes_dom r).
Qed.

Lemma MultiHasher_Writes_wired ps m :
  wired m -> wired (MultiHasher_Writes m ps).1.
Proof.
  intros [Hnd Hk]. unfold wired. rewrite MultiHasher_Writes_w.
  split; [done|]. intros k. by rewrite MultiHasher_Writes_dom.
Qed.

(** A hasher that is not referenced is not touched. *)
Lemma multiWriter_Write_keeps ws p : forall (h : gmap ptr Hash) j,
  j ∉ ws -> (multiWriter_Write ws h p).1 !! j = h !! j.
Proof.
  induction ws as [|k ws IH]; intros h j Hj; cbn [multiWriter_Write]; [done|].
  apply not_elem_of_cons in Hj as [Hne Hj].
  destruct (h !! k) as [o0|]; [|by apply IH].
  destruct (Hash_Write o0 p) as [o1 [n1 [e1|]]]; cbn [fst].
  - by rewrite lookup_insert_ne.
  - destruct (n1 =? len p); cbn [fst].
    + rewrite IH by done. by rewrite lookup_insert_ne.
    + by rewrite lookup_insert_ne.
Qed.

(** A successful call has served every reference. *)
Lemma multiWriter_Write_success ws p : forall (h : gmap ptr Hash) n,
  NoDup ws ->
  (multiWriter_Write ws h p).2 = (n, None) ->
  n = len p
  /\ forall j o, j ∈ ws -> h !! j = Some o ->
       (Hash_Write o p).2 = (len p, None)
       /\ (multiWriter_Write ws h p).1 !! j = Some (Hash_Write o p).1.
Proof.
  induction ws as [|k ws IH]; intros h n Hnd Hres; cbn [multiWriter_Write] in *.
  - split; [by injection Hres|]. intros j o Hj. by apply elem_of_nil in Hj.
  - apply NoDup_cons in Hnd as [Hk Hnd].
    destruct (h !! k) as [o0|] eqn:Hhk.
    + destruct (Hash_Write o0 p) as [o1 [n1 [e1|]]] eqn:Hw; [done|].
      destruct (Z.eqb_spec n1 (len p)) as [->|Hne]; [|done].
      destruct (IH (<[k := o1]> h) n Hnd Hres) as [Hn Hall].
      split; [done|]. intros j o Hj Ho.
      apply elem_of_cons in Hj as [->|Hj].
      * rewrite Hhk in Ho. injection Ho as <-. rewrite Hw. split; [done|].
        pose proof (multiWriter_Write_keeps ws p (<[k := o1]> h) k Hk) as Hkeep.
        by rewrite Hkeep, lookup_insert_eq.
      * apply Hall; [done|].
        rewrite lookup_insert_ne; [done|]. intros ->. done.
    + destruct (IH h n Hnd Hres) as [Hn Hall].
      split; [done|]. intros j o Hj Ho.
      apply elem_of_cons in Hj as [->|Hj]; [congruence|]. by apply Hall.
Qed.

(** A failing call stops at one reference: the hashers before it have
    taken the whole buffer, the one it stops at has taken what its own
    [Write] took, and no other hasher is touched. *)
Lemma multiWriter_Write_failure ws p : forall (h : gmap ptr Hash) n e,
  NoDup ws ->
  (multiWriter_Write ws h p).2 = (n, Some e) ->
  exists pre k post o,
    ws = pre ++ k :: post
    /\ h !! k = Some o
    /\ (Hash_Write o p).2.1 = n
    /\ ((Hash_Write o p).2.2 = Some e
        \/ ((Hash_Write o p).2.2 = None /\ n <> len p /\ e = ErrShortWrite))
    /\ (multiWriter_Write ws h p).1 !! k = Some (Hash_Write o p).1
    /\ (forall j o', j ∈ pre -> h !! j = Some o' ->
          (Hash_Write o' p).2 = (len p, None)
          /\ (multiWriter_Write ws h p).1 !! j = Some (Hash_Write o' p).1)
    /\ (forall j, j ∉ pre -> j <> k ->
          (multiWriter_Write ws h p).1 !! j = h !! j).
Proof.
  induction ws as [|k0 ws IH]; intros h n e Hnd Hres;
    cbn [multiWriter_Write] in *; [done|].
  apply NoDup_cons in Hnd as [Hk0 Hnd].
  destruct (h !! k0) as [o0|] eqn:Hhk.
  - destruct (Hash_Write o0 p) as [o1 [n1 [e1|]]] eqn:Hw.
    + injection Hres as <- <-.
      exists [], k0, ws, o0. rewrite Hw. cbn [fst snd].
      split; [done|]. split; [done|]. split; [done|]. split; [by left|].
      split; [by rewrite lookup_insert_eq|].
      split; [intros j o' Hj; by apply elem_of_nil in Hj|].
      intros j _ Hne. by rewrite lookup_insert_ne.
    + destruct (Z.eqb_spec n1 (len p)) as [->|Hne].
      * destruct (IH (<[k0 := o1]> h) n e Hnd Hres)
          as (pre & k & post & o & -> & Hk & Hn & He & Hrk & Hpre & Hrest).
        assert (Hkne : k0 <> k).
        { intros ->. apply Hk0. apply elem_of_app. right. by left. }
        rewrite lookup_insert_ne in Hk by done.
        exists (k0 :: pre), k, post, o.
        split; [done|]. split; [done|]. split; [done|]. split; [done|].
        split; [done|]. split.
        -- intros j o' Hj Ho'. apply elem_of_cons in Hj as [->|Hj].
           ++ rewrite Hhk in Ho'. injection Ho' as <-. rewrite Hw.
              split; [done|]. rewrite Hrest; [by rewrite lookup_insert_eq| |done].
              intros Hin. apply Hk0. apply elem_of_app. by left.
           ++ apply Hpre; [done|]. rewrite lookup_insert_ne; [done|].
              intros ->. apply Hk0. apply elem_of_app. by left.
        -- intros j Hj Hjk. apply not_elem_of_cons in Hj as [Hj0 Hj].
           rewrite Hrest by done. by rewrite lookup_insert_ne.
      * injection Hres as <- <-.
        exists [], k0, ws, o0. rewrite Hw. cbn [fst snd].
        split; [done|]. split; [done|]. split; [done|]. split; [by right|].
        split; [by rewrite lookup_insert_eq|].
        split; [intros j o' Hj; by apply elem_of_nil in Hj|].
        intros j _ Hne'. by rewrite lookup_insert_ne.
  - destruct (IH h n e Hnd Hres)
      as (pre & k & post & o & -> & Hk & Hn & He & Hrk & Hpre & Hrest).
    exists (k0 :: pre), k, post, o.
    split; [done|]. split; [done|]. split; [done|]. split; [done|].
    split; [done|]. split.
    + intros j o' Hj Ho'. apply elem_of_cons in Hj as [->|Hj]; [congruence|].
      by apply Hpre.
    + intros j Hj Hjk. apply not_elem_of_cons in Hj as [_ Hj]. by apply Hrest.
Qed.

(** X10. A [Write] that returns no error has returned the length of the
    buffer, and every digest computer of the MultiHasher has been given the
    whole buffer, has accepted it in full, and is what [Sum] now reads. *)
Theorem Write_success_reaches_all range r types m0 ps p n :
  valid_range range ->
  NewMultiHasher range r types = Some m0 ->
  (MultiHasher_Write (MultiHasher_Writes m0 ps).1 p).2 = (n, None) ->
  n = len p
  /\ forall d, d ∈ types ->
       exists o,
         mh_h (MultiHasher_Writes m0 ps).1 !! d = Some o
         /\ (Hash_Write o p).2 = (len p, None)
         /\ MultiHasher_Sum
              (MultiHasher_Write (MultiHasher_Writes m0 ps).1 p).1 d
            = (Hash_Sum (Hash_Write o p).1 [], None).
Proof.
  intros Hr Hnew Hres.
  destruct (NewMultiHasher_wired range r types m0 Hr Hnew) as [Hw0 Htypes].
  destruct (MultiHasher_Writes_wired ps m0 Hw0) as [Hnd Hkeys].
  pose proof (MultiHasher_Writes_w ps m0) as Hsame.
  set (m := (MultiHasher_Writes m0 ps).1) in *.
  unfold MultiHasher_Write in Hres |- *.
  pose proof (multiWriter_Write_success (mh_w m) p (mh_h m)) as Hsucc.
  destruct (multiWriter_Write (mh_w m) (mh_h m) p) as [h1 [n1 err]].
  simpl in Hres. injection Hres as -> ->.
  destruct (Hsucc n Hnd eq_refl) as [Hn Hall].
  split; [done|]. intros d Hd.
  assert (Hin : d ∈ mh_w m) by (rewrite Hsame; by apply Htypes).
  destruct (proj1 (Hkeys d) Hin) as [o Ho].
  destruct (Hall d o Hin Ho) as [Hacc Hnew'].
  exists o. split; [done|]. split; [done|].
  unfold MultiHasher_Sum. simpl in *. by rewrite Hnew'.
Qed.

Lemma Write_success_reaches_all_witness :
  exists m0,
    NewMultiHasher doubles.range_fwd registry0 [MD5; SHA1] = Some m0
    /\ forall d, d ∈ [MD5; SHA1] ->
         exists o,
           mh_h (MultiHasher_Writes m0 doubles.pieces).1 !! d = Some o
           /\ (Hash_Write o doubles.hello).2 = (len doubles.hello, None)
           /\ MultiHasher_Sum
                (MultiHasher_Write (MultiHasher_Writes m0 doubles.pieces).1
                   doubles.hello).1 d
              = (Hash_Sum (Hash_Write o doubles.hello).1 [], None).
Proof.
  eexists. split; [reflexivity|].
  refine (proj2 (Write_success_reaches_all doubles.range_fwd registry0
                   [MD5; SHA1] _ doubles.pieces doubles.hello 5 _ eq_refl _)).
  - intros A m. reflexivity.
  - vm_compute. reflexivity.
Defined.

(** X11. A [Write] that returns an error has stopped at one digest
    computer: the computers served before it have taken the whole buffer,
    the one it stopped at has taken what its own [Write] took and
    determines the returned count and error ([ErrShortWrite] when it
    reported a short count without an error), and the computers that come
    after it have not been touched.  Nothing is rolled back. *)
Theorem Write_failure_is_partial range r types m0 ps p n e :
  valid_range range ->
  NewMultiHasher range r types = Some m0 ->
  (MultiHasher_Write (MultiHasher_Writes m0 ps).1 p).2 = (n, Some e) ->
  exists pre k post o,
    mh_w (MultiHasher_Writes m0 ps).1 = pre ++ k :: post
    /\ (forall d, d ∈ pre ++ k :: post <-> d ∈ types)
    /\ mh_h (MultiHasher_Writes m0 ps).1 !! k = Some o
    /\ (Hash_Write o p).2.1 = n
    /\ ((Hash_Write o p).2.2 = Some e
        \/ ((Hash_Write o p).2.2 = None /\ n <> len p /\ e = ErrShortWrite))
    /\ mh_h (MultiHasher_Write (MultiHasher_Writes m0 ps).1 p).1 !! k
       = Some (Hash_Write o p).1
    /\ (forall j, j ∈ pre ->
          exists o', mh_h (MultiHasher_Writes m0 ps).1 !! j = Some o'
            /\ (Hash_Write o' p).2 = (len p, None)
            /\ mh_h (MultiHasher_Write (MultiHasher_Writes m0 ps).1 p).1 !! j
               = Some (Hash_Write o' p).1)
    /\ (forall j, j ∈ post ->
          mh_h (MultiHasher_Write (MultiHasher_Writes m0 ps).1 p).1 !! j
          = mh_h (MultiHasher_Writes m0 ps).1 !! j).
Proof.
  intros Hr Hnew Hres.
  destruct (NewMultiHasher_wired range r types m0 Hr Hnew) as [Hw0 Htypes].
  destruct (MultiHasher_Writes_wired ps m0 Hw0) as [Hnd Hkeys].
  pose proof (MultiHasher_Writes_w ps m0) as Hsame.
  set (m := (MultiHasher_Writes m0 ps).1) in *.
  unfold MultiHasher_Write in Hres |- *.
  pose proof (multiWriter_Write_failure (mh_w m) p (mh_h m)) as Hfail.
  destruct (multiWriter_Write (mh_w m) (mh_h m) p) as [h1 [n1 err]].
  simpl in Hres. injection Hres as -> ->.
  destruct (Hfail n e Hnd eq_refl)
    as (pre & k & post & o & Hws & Hk & Hn & He & Hrk & Hpre & Hrest).
  exists pre, k, post, o. cbn [fst mh_h] in *.
  split; [done|].
  split; [intros d; rewrite <- Hws, Hsame; apply Htypes|].
  split; [done|]. split; [done|]. split; [done|]. split; [done|].
  rewrite Hws in Hnd. apply NoDup_app in Hnd as (_ & Hdisj & Hnd').
  apply NoDup_cons in Hnd' as [Hkpost _].
  split.
  - intros j Hj.
    assert (Hin : j ∈ mh_w m) by (rewrite Hws; apply elem_of_app; by left).
    destruct (proj1 (Hkeys j) Hin) as [o' Ho'].
    destruct (Hpre j o' Hj Ho') as [Hacc Hnew'].
    exists o'. done.
  - intros j Hj. apply Hrest.
    + intros Hjpre. apply (Hdisj j Hjpre). by right.
    + intros ->. done.
Qed.

Lemma Write_failure_is_partial_witness :
  exists pre k post o,
    NewMultiHasher doubles.range_bwd doubles.registry_limited
      [MD5; doubles.LIMITED; SHA1] = Some doubles.mh_three
    /\ (MultiHasher_Write (MultiHasher_Writes doubles.mh_three []).1
          doubles.hello).2
       = (3, Some (ErrOther "no space left"))
    /\ mh_w (MultiHasher_Writes doubles.mh_three []).1 = pre ++ k :: post
    /\ mh_h (MultiHasher_Writes doubles.mh_three []).1 !! k = Some o
    /\ (Hash_Write o doubles.hello).2.1 = 3
    /\ (forall j, j ∈ post ->
          mh_h (MultiHasher_Write (MultiHasher_Writes doubles.mh_three []).1
                  doubles.hello).1 !! j
          = mh_h (MultiHasher_Writes doubles.mh_three []).1 !! j).
Proof.
  destruct (Write_failure_is_partial doubles.range_bwd
              doubles.registry_limited [MD5; doubles.LIMITED; SHA1]
              doubles.mh_three [] doubles.hello 3 (ErrOther "no space left"))
    as (pre & k & post & o & Hw & _ & Hk & Hn & _ & _ & _ & Hpost).
  - intros A m. symmetry. apply Permutation_rev.
  - reflexivity.
  - vm_compute. reflexivity.
  - exists pre, k, post, o.
    split; [reflexivity|]. split; [vm_compute; reflexivity|]. done.
Defined.

(* ===================================================================== *)
(** * Further properties of HashInfo                                     *)
(* ===================================================================== *)

(** X12. A result set made by [NewHashInfo(ht, str)] gives [str] back for
    [ht] and the empty string for every other descriptor.  Its rendering is
    empty when [str] is empty, even if [ht] is not a descriptor, and is the
    one line "<Name>:<str>" otherwise, which reads [ht.Name] and so needs
    [ht] to be a descriptor. *)
Theorem NewHashInfo_single range r ht str :
  valid_range range ->
  (forall ht', HashInfo_GetHash (NewHashInfo ht str) ht'
               = if decide (ht' = ht) then str else EmptyString)
  /\ HashInfo_String range r (NewHashInfo ht str)
     = if decide (str = EmptyString) then Some EmptyString
       else T ← heap r !! ht; Some (Name T ++ ":" ++ str)%string.
Proof.
  intros Hr. split.
  - intros ht'. unfold HashInfo_GetHash, NewHashInfo. simpl.
    destruct (decide (ht' = ht)) as [->|Hne].
    + by rewrite lookup_insert_eq.
    + by rewrite lookup_insert_ne, lookup_empty.
  - unfold HashInfo_String, String_tmp, NewHashInfo. simpl.
    rewrite (valid_range_singleton range string ht str Hr). simpl.
    unfold String_step. simpl.
    destruct (decide (str = EmptyString)) as [->|Hne]; [done|].
    rewrite (proj2 (String_length_pos str) Hne).
    by destruct (heap r !! ht).
Qed.

Lemma NewHashInfo_single_witness :
  HashInfo_GetHash (NewHashInfo SHA1 "abc123") SHA1 = "abc123"%string
  /\ HashInfo_GetHash (NewHashInfo SHA1 "abc123") MD5 = EmptyString
  /\ HashInfo_String doubles.range_fwd registry0 (NewHashInfo SHA1 "abc123")
     = Some "sha1:abc123"%string
  /\ HashInfo_String doubles.range_fwd registry0 (NewHashInfo 7%nat "abc123")
     = None
  /\ HashInfo_String doubles.range_fwd registry0 (NewHashInfo 7%nat "")
     = Some EmptyString.
Proof.
  assert (Hr : valid_range doubles.range_fwd) by (intros A m; reflexivity).
  destruct (NewHashInfo_single doubles.range_fwd registry0 SHA1 "abc123" Hr)
    as [Hget Hstr].
  split; [by rewrite Hget|]. split; [by rewrite Hget|].
  split; [by rewrite Hstr|].
  split; reflexivity.
Defined.

Lemma Join_nil_inv (tmp : list string) :
  Forall (fun line => line <> EmptyString) tmp ->
  Join tmp newline = EmptyString -> tmp = [].
Proof.
  destruct tmp as [|e rest]; [done|]. intros Hall Hj.
  apply Forall_cons in Hall as [He _]. exfalso. apply He.
  destruct rest; simpl in Hj; [done|].
  destruct e; [done|discriminate Hj].
Qed.

Lemma is_line_of_nonempty r line kv : is_line_of r line kv -> line <> EmptyString.
Proof.
  intros (T & _ & ->). destruct (Name T); discriminate.
Qed.

(** X13. [String()] is the empty string exactly when no entry of the
    result set has a non-empty digest. *)
Theorem String_empty_iff range r hi :
  valid_range range ->
  (forall k s, hi_h hi !! k = Some s -> s <> EmptyString ->
               is_Some (heap r !! k)) ->
  HashInfo_String range r hi = Some EmptyString <->
  forall k s, hi_h hi !! k = Some s -> s = EmptyString.
Proof.
  intros Hr Hv.
  destruct (String_tmp_spec range r hi Hr Hv)
    as (tmp & entries & Hstr & Hperm & Hall).
  rewrite Hstr. split.
  - intros [= Hj]. apply Join_nil_inv in Hj.
    2:{ clear -Hall. induction Hall as [|line kv tmp entries Hl _ IH];
          constructor; [by eapply is_line_of_nonempty|done]. }
    subst tmp. apply Forall2_nil_inv_l in Hall as ->.
    apply Permutation_nil_l in Hperm.
    intros k s Hk. destruct (decide (s = EmptyString)) as [|Hne]; [done|].
    assert (Hin : (k, s) ∈ filter (fun kv : ptr * string => kv.2 <> EmptyString)
                     (map_to_list (hi_h hi))).
    { apply list_elem_of_filter. split; [done|]. by apply elem_of_map_to_list. }
    rewrite <- Hperm in Hin. by apply elem_of_nil in Hin.
  - intros Hempty.
    assert (Hnil : filter (fun kv : ptr * string => kv.2 <> EmptyString)
                     (map_to_list (hi_h hi)) = []).
    { apply elem_of_nil_inv. intros [k s] Hin.
      apply list_elem_of_filter in Hin as [Hne Hin].
      apply elem_of_map_to_list in Hin. by apply Hne, (Hempty k). }
    rewrite Hnil in Hperm. apply Permutation_nil_r in Hperm as ->.
    by apply Forall2_nil_inv_r in Hall as ->.
Qed.

Lemma String_empty_iff_witness :
  HashInfo_String doubles.range_fwd registry0 doubles.info_blank
  = Some EmptyString.
Proof.
  apply (String_empty_iff doubles.range_fwd registry0 doubles.info_blank).
  - intros A m. reflexivity.
  - intros k s Hk Hne. exfalso. apply Hne.
    unfold doubles.info_blank in Hk. simpl in Hk.
    apply lookup_insert_Some in Hk as [[_ <-]|[_ Hk]]; [done|].
    apply lookup_insert_Some in Hk as [[_ <-]|[_ Hk]]; [done|].
    by rewrite lookup_empty in Hk.
  - intros k s Hk.
    unfold doubles.info_blank in Hk. simpl in Hk.
    apply lookup_insert_Some in Hk as [[_ <-]|[_ Hk]]; [done|].
    apply lookup_insert_Some in Hk as [[_ <-]|[_ Hk]]; [done|].
    by rewrite lookup_empty in Hk.
Defined.

(* ===================================================================== *)
(** * Further properties of HashData                                     *)
(* ===================================================================== *)

Lemma EncodeToString_length (l : list byte) :
  String.length (EncodeToString l) = (2 * length l)%nat.
Proof. induction l as [|v l IH]; simpl; [done|]. rewrite IH. lia. Qed.

Lemma EncodeToString_hex (l : list byte) :
  Forall (fun c => is_hex_digit c = true)
         (list_ascii_of_string (EncodeToString l)).
Proof.
  induction l as [|v l IH]; simpl; [constructor|].
  constructor; [by destruct v|]. constructor; [by destruct v|done].
Qed.

Lemma fromHexChar_hextable (v : byte) :
  byte_of_Z (16 * fromHexChar (hextable (Z.shiftr (byte_to_Z v) 4))
             + fromHexChar (hextable (Z.land (byte_to_Z v) 15))) = v.
Proof. by destruct v. Qed.

Lemma EncodeToString_inj (a b : list byte) :
  EncodeToString a = EncodeToString b -> a = b.
Proof.
  revert b. induction a as [|v a IH]; intros [|w b] Heq; simpl in Heq;
    try done.
  injection Heq as H1 H2 Hrest. f_equal; [|by apply IH].
  rewrite <- (fromHexChar_hextable v), <- (fromHexChar_hextable w).
  by rewrite H1, H2.
Qed.

(** X14. Whatever the digest computer, the string [HashData] returns is
    made of lower-case hexadecimal digits, two per byte of the digest, and
    two inputs get the same string exactly when they get the same digest
    bytes. *)
Theorem HashData_is_hex r d T :
  heap r !! d = Some T ->
  (forall data, exists s,
      HashData r d data = Some s
      /\ String.length s
         = (2 * length (Hash_Sum (Hash_Write (NewFunc T ()) data).1 []))%nat
      /\ Forall (fun c => is_hex_digit c = true) (list_ascii_of_string s))
  /\ (forall a b,
        HashData r d a = HashData r d b <->
        Hash_Sum (Hash_Write (NewFunc T ()) a).1 []
        = Hash_Sum (Hash_Write (NewFunc T ()) b).1 []).
Proof.
  intros HT. unfold HashData. rewrite HT. simpl. split.
  - intros data. eexists. split; [reflexivity|].
    split; [apply EncodeToString_length|apply EncodeToString_hex].
  - intros a b. split.
    + intros [= Heq]. by apply EncodeToString_inj.
    + by intros ->.
Qed.

Lemma HashData_is_hex_witness :
  (forall data, exists s,
      HashData registry0 SHA1 data = Some s
      /\ String.length s
         = (2 * length (Hash_Sum (Hash_Write (sha1.New ()) data).1 []))%nat
      /\ Forall (fun c => is_hex_digit c = true) (list_ascii_of_string s))
  /\ (forall a b,
        HashData registry0 SHA1 a = HashData registry0 SHA1 b <->
        Hash_Sum (Hash_Write (sha1.New ()) a).1 []
        = Hash_Sum (Hash_Write (sha1.New ()) b).1 []).
Proof.
  apply (HashData_is_hex registry0 SHA1
           (MkHashType 40 "sha1" "SHA-1" sha1.New)).
  reflexivity.
Defined.

(** ** The width of the standard digests *)

Lemma le_bytes_length n v : length (le_bytes n v) = n.
Proof. revert v. induction n as [|n IH]; intros v; simpl; [done|]. by rewrite IH. Qed.

Lemma be_bytes_length n v : length (be_bytes n v) = n.
Proof. unfold be_bytes. by rewrite length_rev, le_bytes_length. Qed.

Lemma words_out_length (f : Z -> list byte) (st : list Z) :
  (forall v, length (f v) = 4%nat) ->
  length (concat (map f st)) = (4 * length st)%nat.
Proof.
  intros Hf. induction st as [|v st IH]; simpl; [done|].
  rewrite length_app, Hf, IH. lia.
Qed.

Section BlockDigestState.
Context {W : Type}.
Variable blk : W -> list byte -> W.
Variable trailer : Z -> list byte.
Variable out : W -> list byte.
Variable init : W.
Variable P : W -> Prop.
Hypothesis P_init : P init.
Hypothesis P_blk : forall st q, P st -> P (blk st q).

Lemma block_chunks_keeps n : forall st p, P st -> P (block_chunks blk n st p).
Proof.
  induction n as [|n IH]; intros st p Hst; simpl; [done|].
  apply IH. by apply P_blk.
Qed.

(** What [Sum] serialises after a write on a fresh object is a state the
    block function has produced. *)
Lemma digest_Sum_state data :
  exists st,
    P st
    /\ Hash_Sum (Hash_Write (digest_New blk trailer out init) data).1 []
       = out st.
Proof.
  rewrite Hash_Write_eq. unfold Hash_Sum.
  cbn [digest_New hWrite hSum hcur hstate fst].
  rewrite digest_Write_normal by (unfold BlockSize; simpl; lia).
  cbn [fst]. unfold digest_Sum. cbn [dig_len dig_s dig_x].
  rewrite digest_Write_normal.
  2:{ cbn [dig_x]. rewrite length_drop. unfold BlockSize. lia. }
  cbn [fst dig_s]. eexists. split; [|reflexivity].
  unfold block. by do 2 apply block_chunks_keeps.
Qed.
End BlockDigestState.

Lemma md5_blk_length st q : length (md5.blk st q) = 4%nat.
Proof.
  unfold md5.blk.
  by destruct (foldl (md5.step (words le_uint 16 q)) _ _) as [[[a b] c] d].
Qed.

Lemma sha1_blk_length st q : length (sha1.blk st q) = 5%nat.
Proof.
  unfold sha1.blk.
  by destruct (foldl (sha1.step (sha1.schedule q)) _ _) as [[[[a b] c] d] e].
Qed.

Lemma sha256_step_length w r i : length (sha256.step w r i) = length r.
Proof.
  unfold sha256.step.
  by repeat (destruct r as [|? r]; try done).
Qed.

Lemma sha256_blk_length st q : length (sha256.blk st q) = length st.
Proof.
  unfold sha256.blk. rewrite length_zip_with.
  assert (Hl : forall l r, length (foldl (sha256.step (sha256.schedule q)) r l)
                           = length r).
  { induction l as [|i l IH]; intros r; simpl; [done|].
    by rewrite IH, sha256_step_length. }
  rewrite Hl. lia.
Qed.

Lemma standard_digest_width r data :
  reachable r ->
  forall d, d ∈ [MD5; SHA1; SHA256] ->
    exists T s,
      heap r !! d = Some T
      /\ HashData r d data = Some s
      /\ Z.of_nat (String.length s) = Width T.
Proof.
  intros Hr d Hd. unfold HashData.
  apply elem_of_cons in Hd as [->|Hd].
  { rewrite (reachable_MD5 r Hr). eexists. eexists.
    split; [reflexivity|]. split; [reflexivity|].
    rewrite EncodeToString_length.
    destruct (digest_Sum_state md5.blk md5.trailer md5.out md5.init
                (fun st => length st = 4%nat) eq_refl
                (fun st q _ => md5_blk_length st q) data) as (st & Hst & Hsum).
    cbn [NewFunc md5.New]. unfold md5.New. rewrite Hsum. unfold md5.out.
    rewrite (words_out_length _ _ (le_bytes_length 4)), Hst. reflexivity. }
  apply elem_of_cons in Hd as [->|Hd].
  { rewrite (reachable_SHA1 r Hr). eexists. eexists.
    split; [reflexivity|]. split; [reflexivity|].
    rewrite EncodeToString_length.
    destruct (digest_Sum_state sha1.blk sha1.trailer sha1.out sha1.init
                (fun st => length st = 5%nat) eq_refl
                (fun st q _ => sha1_blk_length st q) data) as (st & Hst & Hsum).
    cbn [NewFunc]. unfold sha1.New. rewrite Hsum. unfold sha1.out.
    rewrite (words_out_length _ _ (be_bytes_length 4)), Hst. reflexivity. }
  apply list_elem_of_singleton in Hd as ->.
  rewrite (reachable_SHA256 r Hr). eexists. eexists.
  split; [reflexivity|]. split; [reflexivity|].
  rewrite EncodeToString_length.
  destruct (digest_Sum_state sha256.blk sha256.trailer sha256.out sha256.init
              (fun st => length st = 8%nat) eq_refl
              (fun st q Hst => eq_trans (sha256_blk_length st q) Hst) data)
    as (st & Hst & Hsum).
  cbn [NewFunc]. unfold sha256.New. rewrite Hsum. unfold sha256.out.
  rewrite (words_out_length _ _ (be_bytes_length 4)), Hst. reflexivity.
Qed.

(** X15. In every reachable registry, for each of the three standard
    descriptors and for every input, the string [HashData] returns has
    exactly as many characters as the descriptor's [Width] says: 32 for
    md5, 40 for sha1, 64 for sha256. *)
Theorem HashData_width r data :
  reachable r ->
  forall d, d ∈ [MD5; SHA1; SHA256] ->
    exists T s,
      heap r !! d = Some T
      /\ HashData r d data = Some s
      /\ Z.of_nat (String.length s) = Width T
      /\ Width T ∈ [32; 40; 64].
Proof.
  intros Hr d Hd.
  destruct (standard_digest_width r data Hr d Hd) as (T & s & HT & Hs & Hw).
  exists T, s. split; [done|]. split; [done|]. split; [done|].
  apply elem_of_cons in Hd as [->|Hd].
  { rewrite (reachable_MD5 r Hr) in HT. injection HT as <-. by left. }
  apply elem_of_cons in Hd as [->|Hd].
  { rewrite (reachable_SHA1 r Hr) in HT. injection HT as <-. right. by left. }
  apply list_elem_of_singleton in Hd as ->.
  rewrite (reachable_SHA256 r Hr) in HT. injection HT as <-.
  right. right. by left.
Qed.

Lemma HashData_width_witness :
  exists T s,
    heap doubles.registry_twice !! SHA256 = Some T
    /\ HashData doubles.registry_twice SHA256 (concat doubles.pieces) = Some s
    /\ Z.of_nat (String.length s) = Width T
    /\ Width T ∈ [32; 40; 64].
Proof.
  apply (HashData_width doubles.registry_twice (concat doubles.pieces)).
  - apply reachable_register. apply reachable_boot.
  - apply (bool_decide_unpack _). reflexivity.
Defined.

(* ===================================================================== *)
(** * Further properties of HashReader and HashFile                      *)
(* ===================================================================== *)

Lemma drained_drained f : drained (drained f) = drained f.
Proof. unfold drained. simpl. f_equal. lia. Qed.

Lemma drained_nothing_left f :
  drop (f_off (drained f)) (f_data (drained f)) = [].
Proof. simpl. apply drop_ge. lia. Qed.

(** X16. [HashReader] consumes its reader and does not rewind it: after a
    call that succeeds the reader is at its end, and a second call on it
    returns the digest of the empty input. *)
Theorem HashReader_consumes r hashType T file :
  heap r !! hashType = Some T ->
  streaming (NewFunc T ()) ->
  f_read_fault file = None ->
  exists s1 s0,
    HashData r hashType (drop (f_off file) (f_data file)) = Some s1
    /\ HashData r hashType [] = Some s0
    /\ HashReader r hashType file = Some (drained file, (s1, None))
    /\ HashReader r hashType (drained file) = Some (drained file, (s0, None)).
Proof.
  intros HT Hs Hnf.
  destruct (HashReader_streaming r hashType T file HT Hs Hnf)
    as (s1 & Hd1 & Hr1).
  destruct (HashReader_streaming r hashType T (drained file) HT Hs Hnf)
    as (s0 & Hd0 & Hr0).
  rewrite drained_nothing_left in Hd0. rewrite drained_drained in Hr0.
  by exists s1, s0.
Qed.

Lemma HashReader_consumes_witness :
  exists s1 s0,
    HashData registry0 MD5
      (drop (f_off doubles.stuck_file) (f_data doubles.stuck_file)) = Some s1
    /\ HashData registry0 MD5 [] = Some s0
    /\ HashReader registry0 MD5 doubles.stuck_file
       = Some (drained doubles.stuck_file, (s1, None))
    /\ HashReader registry0 MD5 (drained doubles.stuck_file)
       = Some (drained doubles.stuck_file, (s0, None)).
Proof.
  apply (HashReader_consumes registry0 MD5
           (MkHashType 32 "md5" "MD5" md5.New) doubles.stuck_file).
  - reflexivity.
  - apply digest_New_streaming.
  - reflexivity.
Defined.

Lemma HashFile_rewinds r hashType T file :
  heap r !! hashType = Some T ->
  streaming (NewFunc T ()) ->
  f_read_fault file = None ->
  f_seek_fault file = None ->
  exists str,
    HashData r hashType (drop (f_off file) (f_data file)) = Some str
    /\ HashFile r hashType file = Some (rewound file, (str, None)).
Proof.
  intros HT Hs Hnf Hsk.
  destruct (HashReader_streaming r hashType T file HT Hs Hnf)
    as (str & Hdata & Hreader).
  exists str. split; [done|].
  unfold HashFile. rewrite Hreader. simpl.
  unfold File_Seek, rewound. simpl. by rewrite Hsk.
Qed.

(** X17. After a [HashFile] that succeeds, the file is at its start, so
    every further [HashFile] returns the digest of the full contents and
    leaves the file as it is.  The first call hashes only what lies after
    the position the file had. *)
Theorem HashFile_repeatable r hashType T file :
  heap r !! hashType = Some T ->
  streaming (NewFunc T ()) ->
  f_read_fault file = None ->
  f_seek_fault file = None ->
  exists s1 s,
    HashData r hashType (drop (f_off file) (f_data file)) = Some s1
    /\ HashData r hashType (f_data file) = Some s
    /\ HashFile r hashType file = Some (rewound file, (s1, None))
    /\ HashFile r hashType (rewound file) = Some (rewound file, (s, None)).
Proof.
  intros HT Hs Hnf Hsk.
  destruct (HashFile_rewinds r hashType T file HT Hs Hnf Hsk)
    as (s1 & Hd1 & Hf1).
  destruct (HashFile_rewinds r hashType T (rewound file) HT Hs Hnf Hsk)
    as (s & Hd & Hf).
  exists s1, s. done.
Qed.

Lemma HashFile_repeatable_witness :
  exists s1 s,
    HashData registry0 SHA1
      (drop (f_off doubles.half_read_file) (f_data doubles.half_read_file))
    = Some s1
    /\ HashData registry0 SHA1 (f_data doubles.half_read_file) = Some s
    /\ HashFile registry0 SHA1 doubles.half_read_file
       = Some (rewound doubles.half_read_file, (s1, None))
    /\ HashFile registry0 SHA1 (rewound doubles.half_read_file)
       = Some (rewound doubles.half_read_file, (s, None)).
Proof.
  apply (HashFile_repeatable registry0 SHA1
           (MkHashType 40 "sha1" "SHA-1" sha1.New) doubles.half_read_file).
  - reflexivity.
  - apply digest_New_streaming.
  - reflexivity.
  - reflexivity.
Defined.

(** The file where a failing read leaves it. *)
Lemma copy_loop_fault k e fuel : forall h f written,
  streaming h ->
  f_read_fault f = Some (k, e) ->
  e <> EOF ->
  (k <= length (f_data f))%nat ->
  (k - f_off f < fuel)%nat ->
  exists h' written',
    copy_loop fuel h f written
    = Some (h',
            {| f_data := f_data f; f_off := Nat.max (f_off f) k;
               f_read_fault := f_read_fault f;
               f_seek_fault := f_seek_fault f |},
            (written', Some e)).
Proof.
  induction fuel as [|fuel IH]; intros h f written Hs Hf He Hk Hfuel; [lia|].
  cbn [copy_loop].
  destruct (Nat.le_gt_cases k (f_off f)) as [Hend|Hlt].
  - assert (Hread : File_Read f copy_buffer_size = (f, ([], Some e))).
    { unfold File_Read. rewrite Hf.
      destruct (Nat.leb_spec (Nat.min k (length (f_data f))) (f_off f));
        [|lia].
      by destruct (Nat.leb_spec k (f_off f)); [|lia]. }
    rewrite Hread. cbn.
    exists h, written. destruct e; try done;
      (do 3 f_equal; destruct f as [fd fo fr fs]; simpl in *; f_equal; lia).
  - set (n := Nat.min copy_buffer_size (k - f_off f)).
    assert (Hread : File_Read f copy_buffer_size
      = ({| f_data := f_data f; f_off := (f_off f + n)%nat;
            f_read_fault := f_read_fault f; f_seek_fault := f_seek_fault f |},
         (take n (drop (f_off f) (f_data f)), None))).
    { unfold File_Read. rewrite Hf.
      destruct (Nat.leb_spec (Nat.min k (length (f_data f))) (f_off f));
        [lia|].
      unfold n. by replace (Nat.min k (length (f_data f))) with k by lia. }
    rewrite Hread.
    set (buf := take n (drop (f_off f) (f_data f))).
    assert (Hn : (0 < n)%nat) by (unfold n, copy_buffer_size; lia).
    assert (Hbuf : len buf = Z.of_nat n).
    { unfold len, buf. rewrite length_take, length_drop. unfold n. lia. }
    cbn beta iota.
    destruct (Z.ltb_spec 0 (len buf)) as [_|Hle]; [|lia].
    pose proof (streaming_Write_result h buf Hs) as Hres.
    destruct (Hash_Write h buf) as [h1 [nw ew]] eqn:Hw.
    simpl in Hres. injection Hres as -> ->.
    destruct (Z.ltb_spec (len buf) 0) as [Hneg|_]; [lia|].
    rewrite Z.ltb_irrefl. cbn [orb]. cbn beta iota.
    rewrite Z.eqb_refl. cbn beta iota.
    edestruct (IH h1
      {| f_data := f_data f; f_off := (f_off f + n)%nat;
         f_read_fault := f_read_fault f; f_seek_fault := f_seek_fault f |}
      (wrap64 (written + len buf))) as (h' & written' & Hrec).
    + replace h1 with (Hash_Write h buf).1 by (by rewrite Hw).
      by apply streaming_Write.
    + done.
    + done.
    + done.
    + simpl. unfold n. lia.
    + exists h', written'. rewrite Hrec.
      cbn [f_data f_off f_read_fault f_seek_fault].
      do 3 f_equal. f_equal. unfold n. lia.
Qed.

(** X18. When a read of the source fails before the end, [HashReader]
    returns the empty string with the error it was given, wrapped;
    [HashFile] returns that same pair and does not rewind: the source
    stays where the failing read left it. *)
Theorem read_failure_no_digest r hashType T file k e :
  heap r !! hashType = Some T ->
  streaming (NewFunc T ()) ->
  f_read_fault file = Some (k, e) ->
  e <> EOF ->
  (k <= length (f_data file))%nat ->
  let stopped :=
    {| f_data := f_data file; f_off := Nat.max (f_off file) k;
       f_read_fault := f_read_fault file;
       f_seek_fault := f_seek_fault file |} in
  HashReader r hashType file
  = Some (stopped, (EmptyString, Some (NewErr e "HashReader error")))
  /\ HashFile r hashType file
     = Some (stopped, (EmptyString, Some (NewErr e "HashReader error"))).
Proof.
  intros HT Hs Hf He Hk stopped.
  assert (Hreader : HashReader r hashType file
    = Some (stopped, (EmptyString, Some (NewErr e "HashReader error")))).
  { unfold HashReader, io_Copy. rewrite HT. cbn [mbind option_bind].
    destruct (copy_loop_fault k e (S (length (f_data file) - f_off file))
                (NewFunc T ()) file 0 Hs Hf He Hk)
      as (h' & written' & ->); [lia|].
    cbn [mbind option_bind]. done. }
  split; [done|]. unfold HashFile. by rewrite Hreader.
Qed.

Lemma read_failure_no_digest_witness :
  HashReader registry0 MD5 doubles.torn_file
  = Some (MkFile doubles.hello 3
            (Some (3%nat, ErrOther "input/output error")) None,
          (EmptyString,
           Some (NewErr (ErrOther "input/output error") "HashReader error")))
  /\ HashFile registry0 MD5 doubles.torn_file
     = Some (MkFile doubles.hello 3
               (Some (3%nat, ErrOther "input/output error")) None,
             (EmptyString,
              Some (NewErr (ErrOther "input/output error")
                      "HashReader error"))).
Proof.
  apply (read_failure_no_digest registry0 MD5
           (MkHashType 32 "md5" "MD5" md5.New) doubles.torn_file 3
           (ErrOther "input/output error")).
  - reflexivity.
  - apply digest_New_streaming.
  - reflexivity.
  - discriminate.
  - simpl. lia.
Defined.

(* ===================================================================== *)
(** * From the writes to the rendered result set                         *)
(* ===================================================================== *)

(** X19. In every reachable registry [GetMD5EncodeStr] returns, for every
    string, thirty-two lower-case hexadecimal digits. *)
Theorem GetMD5EncodeStr_32_hex r data :
  reachable r ->
  exists s,
    GetMD5EncodeStr r data = Some s
    /\ String.length s = 32%nat
    /\ Forall (fun c => is_hex_digit c = true) (list_ascii_of_string s).
Proof.
  intros Hr. unfold GetMD5EncodeStr.
  destruct (standard_digest_width r (bytes_of_string data) Hr MD5)
    as (T & s & HT & Hs & Hw); [by left|].
  rewrite (reachable_MD5 r Hr) in HT. injection HT as <-. simpl in Hw.
  exists s. split; [done|]. split; [lia|].
  unfold HashData in Hs. rewrite (reachable_MD5 r Hr) in Hs.
  simpl in Hs. injection Hs as <-. apply EncodeToString_hex.
Qed.

Lemma GetMD5EncodeStr_32_hex_witness :
  exists s,
    GetMD5EncodeStr doubles.registry_twice "hello" = Some s
    /\ String.length s = 32%nat
    /\ Forall (fun c => is_hex_digit c = true) (list_ascii_of_string s).
Proof.
  apply (GetMD5EncodeStr_32_hex doubles.registry_twice "hello").
  apply reachable_register. apply reachable_boot.
Defined.

(** What [GetHashInfo] holds after any number of writes, for hashers that
    honour the contract. *)
Lemma GetHashInfo_after_Writes range r types m ps d s :
  valid_range range ->
  NewMultiHasher range r types = Some m ->
  (forall t T, t ∈ types -> heap r !! t = Some T -> streaming (NewFunc T ())) ->
  hi_h (GetHashInfo range (MultiHasher_Writes m ps).1) !! d = Some s <->
  d ∈ types /\ HashData r d (concat ps) = Some s.
Proof.
  intros Hr Hnew Hst.
  pose proof (NewMultiHasher_ready range r types m Hr Hnew Hst) as Hm.
  rewrite (GetHashInfo_fmap _ _ Hr), lookup_fmap.
  rewrite (MultiHasher_Writes_fanout ps m Hm), lookup_fmap.
  unfold NewMultiHasher in Hnew.
  destruct (fromTypes r types) as [hashers|] eqn:Hf; [|done].
  injection Hnew as <-. simpl. unfold HashData. split.
  - destruct (hashers !! d) as [o|] eqn:Ho; [|done]. simpl. intros [= <-].
    apply (fromTypes_lookup r types hashers d o Hf) in Ho
      as (Hin & T & HT & ->).
    split; [done|]. by rewrite HT.
  - intros [Hin Hs].
    destruct (proj2 (fromTypes_dom r types hashers d Hf) Hin) as [o Ho].
    rewrite Ho. simpl.
    apply (fromTypes_lookup r types hashers d o Hf) in Ho
      as (_ & T & HT & ->).
    rewrite HT in Hs. simpl in Hs. by injection Hs as <-.
Qed.

(** X20. For a MultiHasher built from standard descriptors and written
    to in any number of pieces, the rendering of [GetHashInfo()] is the
    join by newlines of exactly one line per requested type, and the line
    of a type is its name, a colon, and the string [HashData] returns for
    that type on the concatenation of the pieces. *)
Theorem String_of_GetHashInfo range r types m ps :
  valid_range range ->
  reachable r ->
  (forall t, t ∈ types -> t ∈ [MD5; SHA1; SHA256]) ->
  NewMultiHasher range r types = Some m ->
  exists tmp entries,
    HashInfo_String range r (GetHashInfo range (MultiHasher_Writes m ps).1)
    = Some (Join tmp newline)
    /\ Forall2 (is_line_of r) tmp entries
    /\ NoDup entries.*1
    /\ forall d s, (d, s) ∈ entries <->
                   d ∈ types /\ HashData r d (concat ps) = Some s.
Proof.
  intros Hr Hreach Hstd Hnew.
  assert (Hst : forall t T, t ∈ types -> heap r !! t = Some T ->
                            streaming (NewFunc T ())).
  { intros t T Ht. apply (standard_streaming r Hreach). by apply Hstd. }
  set (hi := GetHashInfo range (MultiHasher_Writes m ps).1).
  assert (Hlook : forall d s, hi_h hi !! d = Some s <->
                    d ∈ types /\ HashData r d (concat ps) = Some s).
  { intros d s. by apply GetHashInfo_after_Writes. }
  assert (Hne : forall d s, hi_h hi !! d = Some s -> s <> EmptyString).
  { intros d s Hd. apply Hlook in Hd as [Hin Hs].
    destruct (standard_digest_width r (concat ps) Hreach d (Hstd d Hin))
      as (T & s' & HT & Hs' & Hw).
    rewrite Hs in Hs'. injection Hs' as <-. intros ->.
    pose proof (Hstd d Hin) as Hd3.
    apply elem_of_cons in Hd3 as [->|Hd3].
    { rewrite (reachable_MD5 r Hreach) in HT. injection HT as <-.
      discriminate Hw. }
    apply elem_of_cons in Hd3 as [->|Hd3].
    { rewrite (reachable_SHA1 r Hreach) in HT. injection HT as <-.
      discriminate Hw. }
    apply list_elem_of_singleton in Hd3 as ->.
    rewrite (reachable_SHA256 r Hreach) in HT. injection HT as <-.
    discriminate Hw. }
  destruct (String_tmp_spec range r hi Hr) as (tmp & entries & Hstr & Hperm & Hall).
  { intros k s Hk _. apply Hlook in Hk as [_ Hs].
    unfold HashData in Hs. destruct (heap r !! k); [eauto|done]. }
  exists tmp, entries. split; [done|]. split; [done|]. split.
  - rewrite Hperm.
    apply (sublist_NoDup _ (map_to_list (hi_h hi)).*1);
      [apply NoDup_fst_map_to_list|].
    apply fmap_sublist, sublist_filter.
  - intros d s. rewrite Hperm, list_elem_of_filter, elem_of_map_to_list.
    rewrite <- Hlook. simpl. split; [by intros [_ ?]|].
    intros Hd. split; [by apply (Hne d)|done].
Qed.

Lemma String_of_GetHashInfo_witness :
  exists tmp entries,
    NewMultiHasher doubles.range_bwd registry0 [SHA256; MD5]
    = Some doubles.mh_pair
    /\ HashInfo_String doubles.range_bwd registry0
         (GetHashInfo doubles.range_bwd
            (MultiHasher_Writes doubles.mh_pair doubles.pieces).1)
       = Some (Join tmp newline)
    /\ Forall2 (is_line_of registry0) tmp entries
    /\ NoDup entries.*1
    /\ forall d s, (d, s) ∈ entries <->
                   d ∈ [SHA256; MD5]
                   /\ HashData registry0 d (concat doubles.pieces) = Some s.
Proof.
  destruct (String_of_GetHashInfo doubles.range_bwd registry0 [SHA256; MD5]
              doubles.mh_pair doubles.pieces)
    as (tmp & entries & H1 & H2 & H3 & H4).
  - intros A m. symmetry. apply Permutation_rev.
  - apply reachable_boot.
  - intros t Ht. apply elem_of_cons in Ht as [->|Ht].
    + right. right. by left.
    + apply list_elem_of_singleton in Ht as ->. by left.
  - reflexivity.
  - exists tmp, entries. split; [reflexivity|].
    split; [exact H1|]. split; [exact H2|]. split; [exact H3|exact H4].
Defined.

(** X21. When the digest computer refuses the first chunk [io.Copy] hands
    it, [HashReader] returns the empty string with the computer's error,
    wrapped; [HashFile] returns that same pair and does not rewind: the
    source stays after the chunk that was read. *)
Theorem write_failure_no_digest r hashType T file h1 nw e :
  heap r !! hashType = Some T ->
  f_read_fault file = None ->
  (f_off file < length (f_data file))%nat ->
  let n := Nat.min copy_buffer_size (length (f_data file) - f_off file) in
  Hash_Write (NewFunc T ()) (take n (drop (f_off file) (f_data file)))
  = (h1, (nw, Some e)) ->
  let left_at :=
    {| f_data := f_data file; f_off := (f_off file + n)%nat;
       f_read_fault := f_read_fault file;
       f_seek_fault := f_seek_fault file |} in
  HashReader r hashType file
  = Some (left_at, (EmptyString, Some (NewErr e "HashReader error")))
  /\ HashFile r hashType file
     = Some (left_at, (EmptyString, Some (NewErr e "HashReader error"))).
Proof.
  intros HT Hnf Hlt n Hw left_at.
  assert (Hreader : HashReader r hashType file
    = Some (left_at, (EmptyString, Some (NewErr e "HashReader error")))).
  { unfold HashReader, io_Copy. rewrite HT. cbn [mbind option_bind copy_loop].
    rewrite File_Read_data by done. fold n. cbn beta iota.
    assert (Hbuf : len (take n (drop (f_off file) (f_data file)))
                   = Z.of_nat n).
    { unfold len. rewrite length_take, length_drop. unfold n. lia. }
    assert (Hn : (0 < n)%nat) by (unfold n, copy_buffer_size; lia).
    destruct (Z.ltb_spec 0 (len (take n (drop (f_off file) (f_data file)))))
      as [_|Hle]; [|lia].
    rewrite Hw. cbn beta iota.
    by destruct ((nw <? 0)
                 || (len (take n (drop (f_off file) (f_data file))) <? nw)). }
  split; [done|]. unfold HashFile. by rewrite Hreader.
Qed.

Lemma write_failure_no_digest_witness :
  HashReader doubles.registry_limited doubles.LIMITED
    (MkFile doubles.hello 0 None None)
  = Some (MkFile doubles.hello 5 None None,
          (EmptyString,
           Some (NewErr (ErrOther "no space left") "HashReader error")))
  /\ HashFile doubles.registry_limited doubles.LIMITED
       (MkFile doubles.hello 0 None None)
     = Some (MkFile doubles.hello 5 None None,
             (EmptyString,
              Some (NewErr (ErrOther "no space left") "HashReader error"))).
Proof.
  apply (write_failure_no_digest doubles.registry_limited doubles.LIMITED
           (MkHashType 0 "limited" "LIMITED" doubles.limited)
           (MkFile doubles.hello 0 None None)
           (MkHash (list byte) (take 3 doubles.hello) doubles.limited_Write
              (fun st b => b ++ st))
           3 (ErrOther "no space left")).
  - reflexivity.
  - reflexivity.
  - simpl. lia.
  - reflexivity.
Defined.
